(** * howmanylines: the /api/analyze route and its cache, embedded in Rocq

    The development follows the two TypeScript modules of the repository:

    - the cache module: the [CacheService] interface, [MemoryCacheImpl] and
      the store used when caching is disabled (the Redis backend talks to
      a server and is left to the interface);
    - the route handler [POST] with its helpers [wrapGraceful] and
      [traverse].

    How JavaScript is read here:

    - numbers that the code uses as integers are [Z]; the per-byte factor,
      a double, is a rational [Q], and the rounding of a product of doubles
      is a parameter [fl]; the configuration of the handler holds finite
      numbers, and the formula of the time to live is followed through
      [NaN] and the infinities as well;
    - file names and contents are [string], one [ascii] per byte: CR, LF,
      the dot and the slash are single bytes in UTF-8 and no part of a
      longer sequence, so decoding moves none of them; the lowering of
      letter case is a built-in of the language and is taken as given;
    - the [stats] object is a [gmap string Z]; language names are taken
      not to clash with the properties that every object inherits;
    - asynchronous code is a transition system: a state holds the calls in
      flight, and a step lets one of them settle and runs what waited for
      it. The order of settling and the calls whose promise rejects for
      lack of descriptors are inputs. Time does not pass in the model;
      where the code reads the clock or reacts to the deadline, the reading
      is an input. *)

From Stdlib Require Import ZArith QArith Qround Lia List Ascii String DecimalString.
From stdpp Require Import base option list gmap strings fin_maps.
Import ListNotations.

Local Open Scope string_scope.
Local Open Scope Z_scope.
Local Open Scope list_scope.

(** ** JavaScript errors *)

(** An [Error] object as far as the code looks at it: [error.name],
    [error.message] and the optional [error.code] of Node's system errors. *)
Record jserror := JsError {
  err_name : string;
  err_message : string;
  err_code : option string
}.

(** [new Error('AbortError')] *)
Definition AbortError : jserror :=
  {| err_name := "Error"; err_message := "AbortError"; err_code := None |}.

(** A system error of Node with the given code, e.g. [EMFILE]. *)
Definition SystemError (code msg : string) : jserror :=
  {| err_name := "Error"; err_message := msg; err_code := Some code |}.

Definition ENOTDIR : jserror := SystemError "ENOTDIR" "not a directory".
Definition EISDIR : jserror := SystemError "EISDIR" "illegal operation on a directory".
Definition EMFILE : jserror := SystemError "EMFILE" "too many open files".
Definition ENOENT : jserror := SystemError "ENOENT" "no such file or directory".

(** Decimal rendering of a number inside a template literal. *)
Definition show (n : Z) : string := NilZero.string_of_int (Z.to_int n).

(** ** Text helpers used by the traversal *)

Module Text.

Definition CR : ascii := "013"%char.
Definition LF : ascii := "010"%char.

(** [content.split(/\r\n|\r|\n/)]: the alternation is tried left to right
    at every position, so a CR directly followed by LF is one separator. *)
Fixpoint split (content : string) : list string :=
  match content with
  | EmptyString => [""]
  | String c rest =>
      if Ascii.eqb c CR then
        match rest with
        | String c' rest' =>
            if Ascii.eqb c' LF then "" :: split rest' else "" :: split rest
        | EmptyString => "" :: split rest
        end
      else if Ascii.eqb c LF then "" :: split rest
      else
        match split rest with
        | seg :: segs => String c seg :: segs
        | [] => [String c ""]
        end
  end.

(** [content.split(/\r\n|\r|\n/).length] *)
Definition lines (content : string) : Z := Z.of_nat (length (split content)).

(** Number of separators matched by the regular expression, scanning as
    the regular expression engine does. *)
Fixpoint terminators (content : string) : nat :=
  match content with
  | EmptyString => 0
  | String c rest =>
      if Ascii.eqb c CR then
        match rest with
        | String c' rest' =>
            if Ascii.eqb c' LF then S (terminators rest') else S (terminators rest)
        | EmptyString => S (terminators rest)
        end
      else if Ascii.eqb c LF then S (terminators rest)
      else terminators rest
  end.

(** A string without CR and LF. *)
Fixpoint plain (s : string) : bool :=
match s with
| EmptyString => true
| String c rest => negb (Ascii.eqb c CR) && negb (Ascii.eqb c LF) && plain rest
end.

(** The letters A to Z in lower case; other bytes stay as they are. *)
Definition lower_ascii (c : ascii) : ascii :=
  let n := nat_of_ascii c in
  if (65 <=? n)%nat && (n <=? 90)%nat then ascii_of_nat (n + 32) else c.

Fixpoint toLowerCaseASCII (s : string) : string :=
  match s with
  | EmptyString => EmptyString
  | String c rest => String (lower_ascii c) (toLowerCaseASCII rest)
  end.

(** State of the backwards scan of Node's [path.extname] (POSIX flavour). *)
Record scan := Scan {
  startDot : Z;
  startPart : Z;
  end_ : Z;
  matchedSlash : bool;
  preDotState : Z
}.

Definition scan0 : scan :=
  {| startDot := -1; startPart := 0; end_ := -1; matchedSlash := true;
     preDotState := 0 |}.

(** The loop [for (i = path.length - 1; i >= 0; --i)], run over the
    characters in reverse order. *)
Fixpoint extname_loop (rev_chars : list ascii) (i : Z) (st : scan) : scan :=
  match rev_chars with
  | [] => st
  | code :: more =>
      if Ascii.eqb code "/"%char then
        if negb (matchedSlash st) then
          {| startDot := startDot st; startPart := i + 1; end_ := end_ st;
             matchedSlash := matchedSlash st; preDotState := preDotState st |}
        else extname_loop more (i - 1) st
      else
        let st1 :=
          if Z.eqb (end_ st) (-1) then
            {| startDot := startDot st; startPart := startPart st;
               end_ := i + 1; matchedSlash := false;
               preDotState := preDotState st |}
          else st in
        let st2 :=
          if Ascii.eqb code "."%char then
            if Z.eqb (startDot st1) (-1) then
              {| startDot := i; startPart := startPart st1; end_ := end_ st1;
                 matchedSlash := matchedSlash st1;
                 preDotState := preDotState st1 |}
            else
              {| startDot := startDot st1; startPart := startPart st1;
                 end_ := end_ st1; matchedSlash := matchedSlash st1;
                 preDotState := 1 |}
          else if negb (Z.eqb (startDot st1) (-1)) then
            {| startDot := startDot st1; startPart := startPart st1;
               end_ := end_ st1; matchedSlash := matchedSlash st1;
               preDotState := -1 |}
          else st1 in
        extname_loop more (i - 1) st2
  end.

(** [path.extname(p)] *)
Definition extname (p : string) : string :=
  let st :=
    extname_loop (rev (list_ascii_of_string p))
                 (Z.of_nat (String.length p) - 1) scan0 in
  if Z.eqb (startDot st) (-1) || Z.eqb (end_ st) (-1)
     || Z.eqb (preDotState st) 0
     || (Z.eqb (preDotState st) 1 && Z.eqb (startDot st) (end_ st - 1)
         && Z.eqb (startDot st) (startPart st + 1))
  then ""
  else substring (Z.to_nat (startDot st))
                 (Z.to_nat (end_ st - startDot st)) p.

End Text.

(** ** Built-ins of the language

    [String.prototype.toLowerCase] follows the case mappings of Unicode
    (the Kelvin sign U+212A becomes [k], for one). It is no part of the
    sources, and the development takes it as given: whatever is proved
    holds for every function put in its place. *)
Class Builtins := { toLowerCase : string -> string }.

(** The built-in cut down to the letters A to Z, for the worked examples:
    the two agree on names written in ASCII. *)
Definition ascii_builtins : Builtins :=
  {| toLowerCase := Text.toLowerCaseASCII |}.

(** ** The retrying wrapper [wrapGraceful] *)

Module Retry.

(** What the wrapper does, in order: calls of the wrapped function and
    the waits between them. *)
Inductive io_event :=
| Attempt
| Sleep (ms : Z).

(** [error.code === 'EMFILE' || error.code === 'ENFILE'] *)
Definition transient (error : jserror) : bool :=
  match err_code error with
  | Some code => String.eqb code "EMFILE" || String.eqb code "ENFILE"
  | None => false
  end.

(** A call that is refused [n] times for lack of descriptors and then
    yields [v]; the world is the number of refusals left. *)
Definition refused_then {A} (v : A) (n : nat) : (A + jserror) * nat :=
  match n with
  | S n' => (inr EMFILE, n')
  | O => (inl v, O)
  end.

(** A call that always fails for a reason that is not transient; the world
    counts the calls made. *)
Definition always_missing (n : nat) : (string + jserror) * nat :=
  (inr ENOENT, S n).

Section Wrapper.
Context {W A : Type}.

(** The wrapped [fs.promises] function applied to its arguments: it
    acts on the outside world and resolves or rejects. *)
Variable fn : W -> (A + jserror) * W.

(** The [while (true)] loop; [retries] only ever decreases, which
    bounds the loop. *)
Fixpoint retry_loop (retries : nat) (delay : Z) (w : W)
  : (A + jserror) * W * list io_event :=
  let '(r, w1) := fn w in
  match r with
  | inl v => (inl v, w1, [Attempt])
  | inr error =>
      match retries with
      | S retries' =>
          if transient error then
            let '(r', w2, tr) := retry_loop retries' (delay * 2) w1 in
            (r', w2, Attempt :: Sleep delay :: tr)
          else (inr error, w1, [Attempt])
      | O => (inr error, w1, [Attempt])
      end
  end.

(** The function returned by [wrapGraceful(fn)]; [aborted] is
    [signal.aborted] at the time of the call. *)
Definition wrapGraceful (aborted : bool) (w : W)
  : (A + jserror) * W * list io_event :=
  if aborted then (inr AbortError, w, [])
  else retry_loop 10 100 w.

(** The world after [n] calls of [fn]. *)
Fixpoint after (n : nat) (w : W) : W :=
  match n with
  | O => w
  | S n' => after n' (snd (fn w))
  end.

(** The trace of [k] failed attempts, each followed by its wait, the
    waits doubling from [delay]. *)
Fixpoint backoff (k : nat) (delay : Z) : list io_event :=
  match k with
  | O => []
  | S k' => Attempt :: Sleep delay :: backoff k' (delay * 2)
  end.

(** The attempts [0 .. k-1] from [w] all reject with a transient code. *)
Fixpoint all_transient (k : nat) (w : W) : Prop :=
  match k with
  | O => True
  | S k' =>
      (exists e, fst (fn w) = inr e /\ transient e = true)
      /\ all_transient k' (snd (fn w))
  end.

End Wrapper.

End Retry.

(** ** The concurrency limiter *)

Module Limiter.

(** Modelled from the spec: [pLimit] is imported from the repository's
    utility module, which is not part of the sources at hand. Section 4.2
    of the specification describes it: a fixed capacity, a task runs only
    once it holds a permit, the permit is given back when the task
    settles, and callers beyond the capacity wait in a queue (first in,
    first out here). *)
Record plimit (J : Type) := PLimit {
  concurrency : nat;
  activeCount : nat;
  queue : list J
}.
Arguments PLimit {J} _ _ _.
Arguments concurrency {J} _.
Arguments activeCount {J} _.
Arguments queue {J} _.

Definition pLimit {J} (n : nat) : plimit J :=
  {| concurrency := n; activeCount := 0; queue := [] |}.

(** [limit(job)]: the job starts at once when a permit is free (it is
    returned in the second component), and waits in the queue otherwise. *)
Definition submit {J} (job : J) (l : plimit J) : plimit J * list J :=
  if (activeCount l <? concurrency l)%nat then
    ({| concurrency := concurrency l; activeCount := S (activeCount l);
        queue := queue l |}, [job])
  else
    ({| concurrency := concurrency l; activeCount := activeCount l;
        queue := queue l ++ [job] |}, []).

(** A running job settles: its permit goes to the head of the queue, if
    there is one. *)
Definition release {J} (l : plimit J) : plimit J * list J :=
  match queue l with
  | [] =>
      ({| concurrency := concurrency l; activeCount := pred (activeCount l);
          queue := [] |}, [])
  | job :: rest =>
      ({| concurrency := concurrency l; activeCount := activeCount l;
          queue := rest |}, [job])
  end.

Fixpoint submit_all {J} (jobs : list J) (l : plimit J) : plimit J * list J :=
  match jobs with
  | [] => (l, [])
  | job :: more =>
      let '(l1, started1) := submit job l in
      let '(l2, started2) := submit_all more l1 in
      (l2, started1 ++ started2)
  end.

End Limiter.

(** ** The traversal engine *)

Module Traverse.
Import Limiter.

(** An entry of [EXTENSION_MAP]; only [name] is read by the route. *)
Record LanguageInfo := { name : string }.

Set Warnings "-register-all".

(** The checked-out tree as the filesystem calls of [traverse] see it. *)
Inductive entry :=
| Dir (file : string) (listing : list entry)
| DirUnreadable (file : string) (error : jserror)
| File (file : string) (content : string)
| FileUnreadable (file : string) (error : jserror)
| Special (file : string)
| Unstatable (file : string) (error : jserror).

Definition entry_name (e : entry) : string :=
  match e with
  | Dir f _ | DirUnreadable f _ | File f _ | FileUnreadable f _
  | Special f | Unstatable f _ => f
  end.

(** The part of [fs.Stats] that [traverse] looks at. *)
Record Stats := { isDirectory : bool; isFile : bool }.


(** [fs.readdir(path)] *)
Definition readdir (e : entry) : list entry + jserror :=
  match e with
  | Dir _ listing => inl listing
  | DirUnreadable _ error => inr error
  | _ => inr ENOTDIR
  end.

(** [fs.stat(path)] *)
Definition stat (e : entry) : Stats + jserror :=
  match e with
  | Dir _ _ | DirUnreadable _ _ => inl {| isDirectory := true; isFile := false |}
  | File _ _ | FileUnreadable _ _ => inl {| isDirectory := false; isFile := true |}
  | Special _ => inl {| isDirectory := false; isFile := false |}
  | Unstatable _ error => inr error
  end.

(** [fs.readFile(path, 'utf-8')] *)
Definition readFile (e : entry) : string + jserror :=
  match e with
  | File _ content => inl content
  | FileUnreadable _ error => inr error
  | _ => inr EISDIR
  end.

(** The three filesystem calls of [traverse]. *)
Inductive fsop :=
| Readdir (e : entry)
| Stat (e : entry)
| ReadFile (languageName : string) (e : entry).

(** How a call was issued: directly on [fs], or inside [limit(...)]. *)
Inductive call :=
| Direct (op : fsop)
| Limited (op : fsop).

Definition is_limited (c : call) : bool :=
  match c with Limited _ => true | Direct _ => false end.

Definition op_of (c : call) : fsop :=
  match c with Limited op | Direct op => op end.

(** The closure state of [traverse]: the calls in flight, the limiter,
    the two accumulators, the first rejection if any, and [emfile], which
    says of the calls still to settle, in the order in which they will
    settle, whether the promise of the call rejects with [EMFILE] for lack
    of descriptors ([true]) or the call is answered ([false], as are all
    calls once the list is used up). *)
Record tstate := TState {
  inflight : list call;
  limit : plimit fsop;
  stats : gmap string Z;
  totalLines : Z;
  rejected : option jserror;
  emfile : list bool
}.

Definition set_inflight (cs : list call) (s : tstate) : tstate :=
  {| inflight := cs; limit := limit s; stats := stats s;
     totalLines := totalLines s; rejected := rejected s; emfile := emfile s |}.

Definition set_limit (l : plimit fsop) (s : tstate) : tstate :=
  {| inflight := inflight s; limit := l; stats := stats s;
     totalLines := totalLines s; rejected := rejected s; emfile := emfile s |}.

Definition set_emfile (rest : list bool) (s : tstate) : tstate :=
  {| inflight := inflight s; limit := limit s; stats := stats s;
     totalLines := totalLines s; rejected := rejected s; emfile := rest |}.

(** A task rejects: [Promise.all] and with it [traverse] reject with the
    first such error. *)
Definition reject (error : jserror) (s : tstate) : tstate :=
  {| inflight := inflight s; limit := limit s; stats := stats s;
     totalLines := totalLines s;
     rejected := match rejected s with Some e => Some e | None => Some error end;
     emfile := emfile s |}.

(** [stats[languageName] = (stats[languageName] || 0) + lines;
    totalLines += lines]: a missing entry and an entry of 0 both read as 0. *)
Definition count (languageName : string) (lines : Z) (s : tstate) : tstate :=
  {| inflight := inflight s; limit := limit s;
     stats := <[languageName := default 0 (stats s !! languageName) + lines]> (stats s);
     totalLines := totalLines s + lines;
     rejected := rejected s; emfile := emfile s |}.

(** The system answers a call: its promise rejects with [EMFILE] when
    the head of [emfile] says so, and settles with the call's own result
    otherwise. *)
Definition answer {A} (r : A + jserror) (s : tstate) : (A + jserror) * tstate :=
  match emfile s with
  | true :: rest => (inr EMFILE, set_emfile rest s)
  | false :: rest => (r, set_emfile rest s)
  | [] => (r, s)
  end.

(** Whether the promise of the call that settles next rejects with
    [EMFILE]. *)
Definition refusing (s : tstate) : bool := hd false (emfile s).

(** The promise of the walk has settled: it has rejected, or no call is
    left in flight. *)
Definition over (s : tstate) : Prop := rejected s <> None \/ inflight s = [].

(** The permit of a settled limited call is handed on. *)
Definition free_permit (s : tstate) : tstate :=
  let '(l, started) := release (limit s) in
  set_inflight (inflight s ++ map Limited started) (set_limit l s).

(** [limit(() => op)] *)
Definition limited (op : fsop) (s : tstate) : tstate :=
  let '(l, started) := submit op (limit s) in
  set_inflight (inflight s ++ map Limited started) (set_limit l s).

Definition limited_all (ops : list fsop) (s : tstate) : tstate :=
  let '(l, started) := submit_all ops (limit s) in
  set_inflight (inflight s ++ map Limited started) (set_limit l s).

(** A call on [fs] outside the limiter. *)
Definition direct (op : fsop) (s : tstate) : tstate :=
  set_inflight (inflight s ++ [Direct op]) s.

(** The call is a stat or a file read: the two kinds that [traverse]
    wraps in [limit(...)]. *)
Definition stat_or_read (op : fsop) : bool :=
  match op with
  | Stat _ | ReadFile _ _ => true
  | Readdir _ => false
  end.

Definition is_read (op : fsop) : bool :=
  match op with
  | ReadFile _ _ => true
  | Readdir _ | Stat _ => false
  end.

(** A call in flight was issued the way its kind is issued in the source:
    stats and reads inside the limiter, listings directly. *)
Definition well_issued (c : call) : bool :=
  match c with
  | Limited op => stat_or_read op
  | Direct op => negb (stat_or_read op)
  end.

Definition count_limited (cs : list call) : nat :=
  length (List.filter is_limited cs).

(** The stats and file reads among the calls in flight. *)
Definition stats_and_reads (cs : list call) : list call :=
  List.filter (fun c => stat_or_read (op_of c)) cs.

(** [sum(stats.values())] *)
Definition sum_values (m : gmap string Z) : Z :=
  map_fold (fun _ v acc => v + acc) 0 m.

(** The limiter agrees with the calls in flight; [held] counts the permits
    of calls that are being settled at this very moment. *)
Definition limiter_ok (held : nat) (s : tstate) : Prop :=
  concurrency (limit s) = 50%nat
  /\ activeCount (limit s) = (held + count_limited (inflight s))%nat
  /\ (activeCount (limit s) <= concurrency (limit s))%nat
  /\ (queue (limit s) <> [] -> activeCount (limit s) = concurrency (limit s))
  /\ Forall (fun op => stat_or_read op = true) (queue (limit s))
  /\ Forall (fun c => well_issued c = true) (inflight s).

(** The accumulators agree, and every language present has at least one line. *)
Definition counters_ok (s : tstate) : Prop :=
  totalLines s = sum_values (stats s)
  /\ map_Forall (fun _ v => 1 <= v) (stats s).

Section Engine.

Context {builtins : Builtins}.

(** The extension table of the constants module. *)
Variable EXTENSION_MAP : gmap string LanguageInfo.

(** Lines 199-208: the language of a regular file, if it has one. *)
Definition languageOf (file : string) : option string :=
  let ext := toLowerCase (Text.extname file) in
  if String.eqb file "Dockerfile" then Some "Dockerfile"
  else
    match EXTENSION_MAP !! ext with
    | Some info => Some (name info)
    | None => None
    end.

(** [files.map(async (file) => ...)] up to the first [await]: entries
    named [.git] return at once, every other entry asks for its stat
    through the limiter. *)
Definition tasks (files : list entry) : list fsop :=
  map Stat (List.filter (fun e => negb (String.eqb (entry_name e) ".git")) files).

(** The continuation of one settled call, [c] already taken out of
    the calls in flight. *)
Definition settle (c : call) (s : tstate) : tstate :=
  match c with
  | Direct (Readdir d) =>
      match answer (readdir d) s with
      | (inl files, s1) => limited_all (tasks files) s1
      | (inr error, s1) => reject error s1
      end
  | Limited (Stat e) =>
      match answer (stat e) s with
      | (inl st, s1) =>
          let s2 := free_permit s1 in
          if isDirectory st then direct (Readdir e) s2
          else if isFile st then
            match languageOf (entry_name e) with
            | Some languageName => limited (ReadFile languageName e) s2
            | None => s2
            end
          else s2
      | (inr error, s1) => reject error (free_permit s1)
      end
  | Limited (ReadFile languageName e) =>
      match answer (readFile e) s with
      | (inl content, s1) =>
          free_permit (count languageName (Text.lines content) s1)
      | (inr _, s1) => free_permit s1
      end
  | Limited (Readdir _) => free_permit s
  | Direct _ => s
  end.

(** The call at position [i] of the calls in flight settles. *)
Definition step_at (i : nat) (s : tstate) : option tstate :=
  match inflight s !! i with
  | Some c => Some (settle c (set_inflight (delete i (inflight s)) s))
  | None => None
  end.

Definition step (s s' : tstate) : Prop := exists i, step_at i s = Some s'.

(** [const limit = pLimit(50)] and the call [traverse(tempDir)]. *)
Definition start (root : entry) (refused : list bool) : tstate :=
  {| inflight := [Direct (Readdir root)]; limit := pLimit 50;
     stats := ∅; totalLines := 0; rejected := None; emfile := refused |}.

Inductive reachable (root : entry) (refused : list bool) : tstate -> Prop :=
| reach_start : reachable root refused (start root refused)
| reach_step s s' :
    reachable root refused s -> step s s' -> reachable root refused s'.

(** The event loop under a schedule, for as long as the promise of the
    walk is pending: [choices] says which of the calls in flight settles
    next. [Promise.all] rejects with the first failure, whatever is still
    in flight or waiting then, and is fulfilled once no call is left. *)
Fixpoint run (fuel : nat) (choices : list nat) (s : tstate) : tstate :=
  match fuel with
  | O => s
  | S fuel' =>
      match rejected s with
      | Some _ => s
      | None =>
          match inflight s with
          | [] => s
          | _ :: _ =>
              let i := (hd 0%nat choices mod length (inflight s))%nat in
              match step_at i s with
              | Some s' => run fuel' (tl choices) s'
              | None => s
              end
          end
      end
  end.

(** Work left in a stat of [e] and all that follows from it. *)
Fixpoint weight (e : entry) : nat :=
  match e with
  | Dir _ listing =>
      (2 + (fix sum (l : list entry) : nat :=
              match l with
              | [] => 0
              | x :: r => weight x + sum r
              end) listing)%nat
  | _ => 2%nat
  end.

Definition weight_op (op : fsop) : nat :=
  match op with
  | Readdir e => pred (weight e)
  | Stat e => weight e
  | ReadFile _ _ => 1%nat
  end.

Definition work (s : tstate) : nat :=
  (list_sum (map (fun c => weight_op (op_of c)) (inflight s))
   + list_sum (map weight_op (queue (limit s))))%nat.

(** [await traverse(tempDir); const result = { stats, totalLines }] *)
Definition traverse (root : entry) (refused : list bool) (choices : list nat)
  : (gmap string Z * Z) + jserror :=
  let s := run (work (start root refused)) choices (start root refused) in
  match rejected s with
  | Some error => inr error
  | None => inl (stats s, totalLines s)
  end.

End Engine.

(** Modelled from the spec: [EXTENSION_MAP] lives in the constants module,
    which is not part of the sources at hand. The scenarios of section 8
    of the specification need the entry that maps [.py] to [Python]; two
    more entries of the same kind stand beside it in the worked examples. *)
Definition sample_EXTENSION_MAP : gmap string LanguageInfo :=
  <[".py" := {| name := "Python" |}]>
    (<[".ts" := {| name := "TypeScript" |}]>
       (<[".js" := {| name := "JavaScript" |}]> ∅)).

(** A directory with [n] one-line Python files [0.py], [1.py], ... *)
Definition many_files (n : nat) : entry :=
  Dir "" (map (fun k => File (show (Z.of_nat k) +:+ ".py") "pass") (seq 0 n)).

(** A directory with [n] empty subdirectories [d0], [d1], ... *)
Definition wide (n : nat) : entry :=
  Dir "" (map (fun k => Dir ("d" +:+ show (Z.of_nat k)) []) (seq 0 n)).

(** The repository of the first scenario of section 8, with its
    [.git] directory. *)
Definition scenario : entry :=
  Dir "" [Dir ".git" [File "HEAD" "ref: refs/heads/main"];
          File "a.py" ("import os" +:+ String Text.LF ("x = 1" +:+ String Text.LF "y = 2"));
          File "b.py" ("a" +:+ String Text.CR (String Text.LF
                       ("b" +:+ String Text.LF
                       ("c" +:+ String Text.CR
                       ("d" +:+ String Text.LF "e")))));
          File "README" "read me"].

End Traverse.

(** ** JavaScript values held by the cache and sent in responses *)

Inductive jsval :=
| JUndefined
| JNull
| JBool (b : bool)
| JNum (n : Z)
| JStr (s : string)
| JAnalysis (stats : gmap string Z) (totalLines : Z)   (* { stats, totalLines } *)
| JNegative (error : string).                          (* { error } *)

(** JavaScript truthiness, as used by [||], [?:] and [if]. *)
Definition truthy (v : jsval) : bool :=
  match v with
  | JUndefined | JNull => false
  | JBool b => b
  | JNum n => negb (Z.eqb n 0)
  | JStr s => negb (String.eqb s "")
  | JAnalysis _ _ | JNegative _ => true
  end.

(** [(v as any).error] *)
Definition get_error (v : jsval) : jsval :=
  match v with
  | JNegative error => JStr error
  | _ => JUndefined
  end.

(** ** The cache module *)

Module Cache.

(** [const DEFAULT_TTL = 24 * 60 * 60] *)
Definition DEFAULT_TTL : Z := 24 * 60 * 60.

(** [interface CacheService]: [get] and [set] are asynchronous and may
    reject; [now] is the clock reading (in milliseconds) at the call. *)
Class CacheService (C : Type) := {
  get : string -> Z -> C -> (jsval + jserror) * C;
  set : string -> jsval -> option Z -> Z -> C -> option jserror * C
}.

(** The [lru-cache] store as the memory backend uses it (section 4.1 of
    the specification: a bounded store with least-recently-used eviction
    and a time to live per entry, checked on read). Entries are kept most
    recently used first. *)
Record lru_entry := {
  lru_key : string;
  lru_value : jsval;
  lru_start : Z;
  lru_ttl : Z
}.

Record LRUCache := {
  max : nat;
  ttl : Z;
  entries : list lru_entry
}.

Definition without (key : string) (es : list lru_entry) : list lru_entry :=
  List.filter (fun e => negb (String.eqb (lru_key e) key)) es.

(** An entry is stale once more than its time to live has passed since it
    was stored; a time to live or a start of 0 means no expiry. *)
Definition is_stale (now : Z) (e : lru_entry) : bool :=
  negb (lru_ttl e =? 0) && negb (lru_start e =? 0)
  && (lru_ttl e <? now - lru_start e).

Definition lru_get (key : string) (now : Z) (c : LRUCache) : jsval * LRUCache :=
  match List.find (fun e => String.eqb (lru_key e) key) (entries c) with
  | Some e =>
      if is_stale now e then
        (JUndefined,
         {| max := max c; ttl := ttl c; entries := without key (entries c) |})
      else
        (lru_value e,
         {| max := max c; ttl := ttl c; entries := e :: without key (entries c) |})
  | None => (JUndefined, c)
  end.

Definition lru_set (key : string) (value : jsval) (ttl_ms : option Z) (now : Z)
    (c : LRUCache) : LRUCache :=
  match value with
  | JUndefined =>
      {| max := max c; ttl := ttl c; entries := without key (entries c) |}
  | _ =>
      let e := {| lru_key := key; lru_value := value; lru_start := now;
                  lru_ttl := default (ttl c) ttl_ms |} in
      {| max := max c; ttl := ttl c;
         entries := firstn (max c) (e :: without key (entries c)) |}
  end.

(** [new MemoryCacheImpl()] *)
Definition MemoryCacheImpl : LRUCache :=
  {| max := 100; ttl := DEFAULT_TTL * 1000; entries := [] |}.

(** [MemoryCacheImpl.get]: [(this.cache.get(key) as T) || null] *)
Definition memory_get (key : string) (now : Z) (c : LRUCache)
  : (jsval + jserror) * LRUCache :=
  let '(v, c') := lru_get key now c in
  (inl (if truthy v then v else JNull), c').

(** [MemoryCacheImpl.set]:
    [this.cache.set(key, value, { ttl: ttl ? ttl * 1000 : undefined })] *)
Definition memory_set (key : string) (value : jsval) (ttl_s : option Z) (now : Z)
    (c : LRUCache) : option jserror * LRUCache :=
  let ttl_ms :=
    match ttl_s with
    | Some t => if truthy (JNum t) then Some (t * 1000) else None
    | None => None
    end in
  (None, lru_set key value ttl_ms now c).

(** The time to live of an entry stored by [memory_set], in milliseconds. *)
Definition effective_ttl (ttl_s : option Z) (c : LRUCache) : Z :=
  match ttl_s with
  | Some t => if t =? 0 then ttl c else t * 1000
  | None => ttl c
  end.

#[export] Instance Memory : CacheService LRUCache :=
  {| get := memory_get; set := memory_set |}.

(** The store used when [CACHE_DISABLED === 'true']:
    [{ get: async () => null, set: async () => { } }] *)
Inductive NoCache := Disabled.

#[export] Instance DisabledStore : CacheService NoCache :=
  {| get := fun _ _ c => (inl JNull, c); set := fun _ _ _ _ c => (None, c) |}.

End Cache.

(** ** URLs *)

(** The fields of a parsed [URL] that the route reads, and its
    serialisation [href]. *)
Record URL := {
  protocol : string;
  hostname : string;
  href : string
}.

(** A reading of [new URL(s)] on the plain shape [scheme://host/path]:
    scheme [http], [https] or [ftp] in any letter case; a host of letters,
    digits, dots and hyphens whose last label starts with a letter (so it is
    a domain, not a number); a path of letters, digits, [/], [-], [_] and
    [.] without dot segments; no user information, port, query, fragment
    or escapes. On this shape the URL standard lowercases scheme and host,
    turns an empty path into [/] and keeps the rest. Anything else is
    reported as unparseable here; the route is parametric in the parser,
    and this one serves the worked examples. *)
Module PlainURL.

Definition is_letter (c : ascii) : bool :=
  let n := nat_of_ascii c in
  ((65 <=? n) && (n <=? 90) || (97 <=? n) && (n <=? 122))%nat.

Definition is_digit (c : ascii) : bool :=
  let n := nat_of_ascii c in ((48 <=? n) && (n <=? 57))%nat.

Definition is_host_char (c : ascii) : bool :=
  is_letter c || is_digit c || Ascii.eqb c "-"%char.

Definition is_path_char (c : ascii) : bool :=
  is_letter c || is_digit c || Ascii.eqb c "/"%char || Ascii.eqb c "-"%char
  || Ascii.eqb c "_"%char || Ascii.eqb c "."%char.

(** Splits at the first character satisfying [stop]. *)
Fixpoint break (stop : ascii -> bool) (s : string) : string * string :=
  match s with
  | EmptyString => ("", "")
  | String c rest =>
      if stop c then ("", s)
      else let '(a, b) := break stop rest in (String c a, b)
  end.

Fixpoint all_chars (p : ascii -> bool) (s : string) : bool :=
  match s with
  | EmptyString => true
  | String c rest => p c && all_chars p rest
  end.

(** Every label is non-empty and made of host characters, and the last
    one starts with a letter. *)
Fixpoint labels_ok (fuel : nat) (host : string) : bool :=
  match fuel with
  | O => false
  | S fuel' =>
      let '(label, rest) := break (fun c => Ascii.eqb c "."%char) host in
      negb (String.eqb label "") && all_chars is_host_char label
      && match rest with
         | EmptyString =>
             match label with String c _ => is_letter c | EmptyString => false end
         | String _ more => labels_ok fuel' more
         end
  end.

(** No path segment starts with a dot. *)
Fixpoint no_dot_segment (path : string) : bool :=
  match path with
  | String "/" (String "." _) => false
  | String _ rest => no_dot_segment rest
  | EmptyString => true
  end.

Definition parse (s : string) : option URL :=
  let '(scheme, after_scheme) := break (fun c => Ascii.eqb c ":"%char) s in
  let scheme' := Text.toLowerCaseASCII scheme in
  match after_scheme with
  | String _ (String "/" (String "/" authority_path)) =>
      let '(host, path) := break (fun c => Ascii.eqb c "/"%char) authority_path in
      if (String.eqb scheme' "http" || String.eqb scheme' "https"
          || String.eqb scheme' "ftp")
         && labels_ok (S (String.length host)) host
         && all_chars is_path_char path && no_dot_segment path
      then
        let host' := Text.toLowerCaseASCII host in
        let path' := match path with EmptyString => "/" | _ => path end in
        Some {| protocol := scheme' +:+ ":"; hostname := host';
                href := scheme' +:+ "://" +:+ host' +:+ path' |}
      else None
  | _ => None
  end.

End PlainURL.

(** ** The route handler *)

Module Route.
Import Cache.

(** The constants read from the environment at module load, for the
    environments that make each of them a number: a variable left unset,
    or one that [parseInt] or [parseFloat] reads as a finite number. A
    variable that does not parse makes its constant [NaN]; the handler is
    modelled for the configurations of this record, and [ttl_number] below
    follows the formula of the time to live through the other values. *)
Record Config := {
  ALLOWED_DOMAINS : list string;
  CACHE_TTL_MIN_SECONDS : Z;
  CACHE_TTL_PER_BYTE : Q;
  ANALYSIS_TIMEOUT_SECONDS : Z;
  CACHE_TTL_ON_TIMEOUT : Z
}.

(** The values used when the environment sets nothing. *)
Definition defaults : Config :=
  {| ALLOWED_DOMAINS := ["github.com"; "gitlab.com"; "bitbucket.org"];
     CACHE_TTL_MIN_SECONDS := 86400;
     CACHE_TTL_PER_BYTE := 1 # 100;
     ANALYSIS_TIMEOUT_SECONDS := 60;
     CACHE_TTL_ON_TIMEOUT := 31536000 |}.





(** The body of the request as the handler meets it. *)
Inductive Request :=
| Malformed (error : jserror)   (* [request.json()] or [body.repoUrl] throws *)
| Body (repoUrl : option string).

Record Response := { status : Z; body : jsval }.

(** [NextResponse.json({ error }, { status })] *)
Definition error_response (error : string) (code : Z) : Response :=
  {| status := code; body := JNegative error |}.

(** The states of a request (section 4.6 of the specification). *)
Inductive phase := Validating | CacheCheck | Fetching | Traversing | Caching.

(** What [git.clone] comes to: the tree on disk and the bytes counted by
    [customHttp], or a rejection. *)
Inductive CloneOutcome :=
| Cloned (totalBytesDownloaded : Z) (tree : Traverse.entry)
| CloneRejected (error : jserror).

(** Everything outside the handler that one request depends on. *)
Record World := {
  now : Z;                          (* clock reading for the cache calls, ms *)
  clone : string -> CloneOutcome;   (* the remote repository *)
  choices : list nat;               (* the order in which file calls settle *)
  refused : list bool;              (* which file calls reject with EMFILE *)
  deadline : option phase           (* where the request is when the timer fires *)
}.

(** What the handler does to the outside, in order. *)
Inductive event :=
| CacheGet (key : string)
| CacheSet (key : string) (value : jsval) (ttl_s : Z)
| Mkdtemp
| Clone (url : string)
| Walk
| RemoveTemp.

Section Handler.

Variable config : Config.

(** [new URL(s)]; [None] when the constructor throws. *)
Variable parseURL : string -> option URL.

(** Rounding of an exact product to a double. *)
Variable fl : Q -> Q.

Context {builtins : Builtins}.
Variable EXTENSION_MAP : gmap string Traverse.LanguageInfo.

Context {C : Type} `{CacheService C}.

(** [`repo:${repoUrl}`] *)
Definition cacheKey (repoUrl : string) : string := "repo:" +:+ repoUrl.

(** Lines 234-237 *)
Definition cache_ttl (totalBytesDownloaded : Z) : Z :=
  Z.max (CACHE_TTL_MIN_SECONDS config)
        (Qceiling (fl (inject_Z totalBytesDownloaded * CACHE_TTL_PER_BYTE config))).



Definition timeout_message : string :=
  "Analysis timed out after " +:+ show (ANALYSIS_TIMEOUT_SECONDS config)
  +:+ " seconds".

(** The test of the [catch] block for a timeout. *)
Definition is_abort (error : jserror) : bool :=
  String.eqb (err_name error) "AbortError"
  || String.eqb (err_message error) "AbortError".

(** The [catch] block: [repoUrl] is the variable as assigned so far. *)
Definition on_error (repoUrl : option string) (error : jserror) (w : World)
    (c : C) : Response * C * list event :=
  if is_abort error then
    match repoUrl with
    | Some url =>
        if negb (String.eqb url "") then
          let value := JNegative timeout_message in
          let '(_, c') :=
            set (cacheKey url) value (Some (CACHE_TTL_ON_TIMEOUT config)) (now w) c in
          (error_response timeout_message 408, c',
           [CacheSet (cacheKey url) value (CACHE_TTL_ON_TIMEOUT config)])
        else (error_response timeout_message 408, c, [])
    | None => (error_response timeout_message 408, c, [])
    end
  else (error_response (err_message error) 500, c, []).

(** The signal is already tripped while [git.clone] still makes calls:
    [customHttp.request] and every function wrapped by [wrapGraceful]
    throw [new Error('AbortError')]. *)
Definition aborted_in_fetch (w : World) : bool :=
  match deadline w with
  | Some Validating | Some CacheCheck | Some Fetching => true
  | _ => false
  end.

Definition git_clone (w : World) (url : string) : CloneOutcome :=
  if aborted_in_fetch w then CloneRejected AbortError else clone w url.

(** From [mkdtemp] (taken to succeed) to the end of the [try] block, with
    the [finally] block that removes the temporary directory. *)
Definition analyze (url : string) (w : World) (c : C)
  : Response * C * list event :=
  let failed error c' before :=
    let '(r, c'', tr) := on_error (Some url) error w c' in
    (r, c'', before ++ tr ++ [RemoveTemp]) in
  match git_clone w url with
  | CloneRejected error => failed error c [Mkdtemp; Clone url]
  | Cloned totalBytesDownloaded tree =>
      match Traverse.traverse EXTENSION_MAP tree (refused w) (choices w) with
      | inr error => failed error c [Mkdtemp; Clone url; Walk]
      | inl (stats, totalLines) =>
          let result := JAnalysis stats totalLines in
          let ttl := cache_ttl totalBytesDownloaded in
          let stored := CacheSet (cacheKey url) result ttl in
          match set (cacheKey url) result (Some ttl) (now w) c with
          | (Some error, c') => failed error c' [Mkdtemp; Clone url; Walk; stored]
          | (None, c') =>
              ({| status := 200; body := result |}, c',
               [Mkdtemp; Clone url; Walk; stored; RemoveTemp])
          end
      end
  end.

(** Lines 73-85, then the analysis on a miss. *)
Definition lookup (url : string) (w : World) (c : C)
  : Response * C * list event :=
  match get (cacheKey url) (now w) c with
  | (inr error, c') =>
      let '(r, c'', tr) := on_error (Some url) error w c' in
      (r, c'', CacheGet (cacheKey url) :: tr)
  | (inl cachedData, c') =>
      if truthy cachedData then
        match get_error cachedData with
        | JStr error =>
            if truthy (JStr error) then
              (error_response error 400, c', [CacheGet (cacheKey url)])
            else
              ({| status := 200; body := cachedData |}, c',
               [CacheGet (cacheKey url)])
        | _ =>
            ({| status := 200; body := cachedData |}, c',
             [CacheGet (cacheKey url)])
        end
      else
        let '(r, c'', tr) := analyze url w c' in
        (r, c'', CacheGet (cacheKey url) :: tr)
  end.

(** [export async function POST(request)] *)
Definition POST (w : World) (request : Request) (c : C)
  : Response * C * list event :=
  match request with
  | Malformed error => on_error None error w c
  | Body None => (error_response "Repository URL is required" 400, c, [])
  | Body (Some repoUrl) =>
      if String.eqb repoUrl "" then
        (error_response "Repository URL is required" 400, c, [])
      else
        match parseURL repoUrl with
        | None => (error_response "Invalid URL provided" 400, c, [])
        | Some parsedUrl =>
            if negb (String.eqb (protocol parsedUrl) "http:")
               && negb (String.eqb (protocol parsedUrl) "https:")
            then
              (error_response "Invalid protocol. Only HTTP/HTTPS are allowed." 400,
               c, [])
            else if negb (existsb (String.eqb (hostname parsedUrl))
                                  (ALLOWED_DOMAINS config))
            then
              (error_response
                 ("Domain not allowed. Supported providers: "
                  +:+ String.concat ", " (ALLOWED_DOMAINS config)) 400,
               c, [])
            else lookup repoUrl w c
        end
  end.

(** The request passes the four checks of lines 51-71. *)
Definition accepted (repoUrl : string) : Prop :=
  repoUrl <> ""
  /\ exists parsedUrl, parseURL repoUrl = Some parsedUrl
     /\ (protocol parsedUrl = "http:" \/ protocol parsedUrl = "https:")
     /\ In (hostname parsedUrl) (ALLOWED_DOMAINS config).

(** The URL is missing, unparseable, of another scheme than http and
    https, or of a host outside the allow-list. *)
Definition unacceptable (repoUrl : option string) : Prop :=
  match repoUrl with
  | None => True
  | Some url =>
      url = ""
      \/ match parseURL url with
         | None => True
         | Some parsedUrl =>
             (protocol parsedUrl <> "http:" /\ protocol parsedUrl <> "https:")
             \/ ~ In (hostname parsedUrl) (ALLOWED_DOMAINS config)
         end
  end.

(** No event of the trace touches the cache under another key than [key]. *)
Definition cache_events_use (key : string) (tr : list event) : Prop :=
  Forall (fun ev =>
            match ev with
            | CacheGet k | CacheSet k _ _ => k = key
            | _ => True
            end) tr.

End Handler.

(** Worlds for the worked examples: the remote repository is the one of
    the first scenario of section 8, 1000 bytes on the wire. *)
Definition calm : World :=
  {| now := 1000; clone := fun _ => Cloned 1000 Traverse.scenario;
     choices := []; refused := []; deadline := None |}.

(** The timer fires while the repository is being fetched. *)
Definition slow_fetch : World :=
  {| now := 1000; clone := fun _ => Cloned 1000 Traverse.scenario;
     choices := []; refused := []; deadline := Some Fetching |}.

(** The timer fires after the fetch, while the tree is being walked. *)
Definition slow_walk : World :=
  {| now := 1000; clone := fun _ => Cloned 1000 Traverse.scenario;
     choices := []; refused := []; deadline := Some Traversing |}.

(** The same repository asked for again, one hour later. *)
Definition an_hour_later : World :=
  {| now := 3601000; clone := fun _ => Cloned 1000 Traverse.scenario;
     choices := []; refused := []; deadline := None |}.

(** The remote repository does not exist. *)
Definition gone : World :=
  {| now := 1000;
     clone := fun _ =>
       CloneRejected {| err_name := "HttpError"; err_message := "HTTP Error: 404 Not Found";
                        err_code := None |};
     choices := []; refused := []; deadline := None |}.


(** Products that are doubles already round to themselves. *)
Definition exact (q : Q) : Q := q.

End Route.


(** ** The walk, read as a recursive function *)

Module Sequential.
Import Traverse.

(** Adds two tables of counts entry by entry. *)
Definition madd (m1 m2 : gmap string Z) : gmap string Z :=
  union_with (fun a b => Some (a + b)) m1 m2.

(** The sum of a list of tables. *)
Definition msum (l : list (gmap string Z)) : gmap string Z :=
  foldr madd ∅ l.

Section Tally.

Context {builtins : Builtins}.
Variable EXTENSION_MAP : gmap string LanguageInfo.

(** What one pass over the tree below [e] counts, file after file: a
    directory adds up its entries other than those named [.git], a
    readable file with a language counts its lines under that language,
    and everything else counts nothing. *)
Fixpoint tally (e : entry) : gmap string Z :=
  match e with
  | Dir _ listing =>
      (fix sum (l : list entry) : gmap string Z :=
         match l with
         | [] => ∅
         | x :: r =>
             if negb (String.eqb (entry_name x) ".git")
             then madd (tally x) (sum r)
             else sum r
         end) listing
  | File file content =>
      match languageOf EXTENSION_MAP file with
      | Some languageName => {[ languageName := Text.lines content ]}
      | None => ∅
      end
  | _ => ∅
  end.

(** What a call and all that follows from it will add to [stats]. *)
Definition contribution (op : fsop) : gmap string Z :=
  match op with
  | Readdir e => match e with Dir _ _ => tally e | _ => ∅ end
  | Stat e => tally e
  | ReadFile languageName e =>
      match readFile e with
      | inl content => {[ languageName := Text.lines content ]}
      | inr _ => ∅
      end
  end.

End Tally.

(** No stat and no listing below [e] fails, entries named [.git] and
    what is below them apart. *)
Fixpoint sound (e : entry) : bool :=
  match e with
  | Dir _ listing =>
      (fix all (l : list entry) : bool :=
         match l with
         | [] => true
         | x :: r =>
             (String.eqb (entry_name x) ".git" || sound x) && all r
         end) listing
  | DirUnreadable _ _ | Unstatable _ _ => false
  | File _ _ | FileUnreadable _ _ | Special _ => true
  end.

(** A place in the tree: the directories on the way down from the root,
    each with its name and with the entries listed before and after the
    next directory on the way. *)
Definition place : Type := list (string * list entry * list entry).

(** The tree that has the directory [d] with the listing [listing] at the
    place [p]. *)
Fixpoint at_place (p : place) (d : string) (listing : list entry) : entry :=
  match p with
  | [] => Dir d listing
  | (d0, before, after) :: p' =>
      Dir d0 (before ++ at_place p' d listing :: after)
  end.

(** The walk goes down to the place: no directory on the way, the root
    apart, is named [.git]. *)
Fixpoint visited (p : place) (d : string) : bool :=
  match p with
  | [] => true
  | _ :: p' =>
      negb (String.eqb (match p' with [] => d | (d1, _, _) :: _ => d1 end) ".git")
      && visited p' d
  end.

(** The root is listed without a stat: it has to be a directory. *)
Definition sound_root (root : entry) : bool :=
  match root with
  | Dir _ _ => sound root
  | _ => false
  end.

Definition sound_op (op : fsop) : bool :=
  match op with
  | Readdir e => sound_root e
  | Stat e => sound e
  | ReadFile _ _ => true
  end.

(** The calls in flight and the calls waiting for a permit. *)
Definition pending (s : tstate) : list fsop :=
  map op_of (inflight s) ++ Limiter.queue (limit s).

(** What the calls still to settle will add to [stats]. *)
Definition owed {builtins : Builtins}
    (EXTENSION_MAP : gmap string LanguageInfo) (s : tstate) : gmap string Z :=
  msum (map (contribution EXTENSION_MAP) (pending s)).

(** The state of a walk without refusals: what is counted and what is
    still owed make up [T]. *)
Definition balanced {builtins : Builtins}
    (EXTENSION_MAP : gmap string LanguageInfo) (T : gmap string Z) (s : tstate)
  : Prop :=
  emfile s = [] /\ madd (stats s) (owed EXTENSION_MAP s) = T.

(** The tree without the entries named [.git], at every depth. *)
Fixpoint prune (e : entry) : entry :=
  match e with
  | Dir file listing =>
      Dir file
        ((fix go (l : list entry) : list entry :=
            match l with
            | [] => []
            | x :: r =>
                if negb (String.eqb (entry_name x) ".git")
                then prune x :: go r
                else go r
            end) listing)
  | _ => e
  end.

(** The pruning carried over to calls, to the limiter and to states. *)
Definition prune_op (op : fsop) : fsop :=
  match op with
  | Readdir e => Readdir (prune e)
  | Stat e => Stat (prune e)
  | ReadFile languageName e => ReadFile languageName (prune e)
  end.

Definition prune_call (c : call) : call :=
  match c with
  | Direct op => Direct (prune_op op)
  | Limited op => Limited (prune_op op)
  end.

Definition prune_limit (l : Limiter.plimit fsop) : Limiter.plimit fsop :=
  {| Limiter.concurrency := Limiter.concurrency l;
     Limiter.activeCount := Limiter.activeCount l;
     Limiter.queue := map prune_op (Limiter.queue l) |}.

Definition prune_state (s : tstate) : tstate :=
  {| inflight := map prune_call (inflight s); limit := prune_limit (limit s);
     stats := stats s; totalLines := totalLines s; rejected := rejected s;
     emfile := emfile s |}.

End Sequential.

(** ** The ways a request can end *)

Module Outcome.
Import Route.

Section Shapes.
Variable config : Config.
Variable fl : Q -> Q.

(** What the [catch] block answers and writes, for a request whose
    [repoUrl] is [url] (if it has one). *)
Inductive failure (url : option string) : Response -> list event -> Prop :=
| failed_other (message : string) :
    failure url (error_response message 500) []
| failed_timeout_unkeyed :
    failure url (error_response (timeout_message config) 408) []
| failed_timeout (repoUrl : string) :
    url = Some repoUrl ->
    failure url (error_response (timeout_message config) 408)
      [CacheSet (cacheKey repoUrl) (JNegative (timeout_message config))
                (CACHE_TTL_ON_TIMEOUT config)].

(** The answers and traces of a request that passed the checks. *)
Inductive outcome (url : string) : Response -> list event -> Prop :=
| lookup_failed r tr :
    failure (Some url) r tr ->
    outcome url r (CacheGet (cacheKey url) :: tr)
| hit_negative (message : string) :
    message <> "" ->
    outcome url (error_response message 400) [CacheGet (cacheKey url)]
| hit_positive (cachedData : jsval) :
    truthy cachedData = true -> truthy (get_error cachedData) = false ->
    outcome url {| status := 200; body := cachedData |} [CacheGet (cacheKey url)]
| fetch_failed r tr :
    failure (Some url) r tr ->
    outcome url r
      (CacheGet (cacheKey url) :: Mkdtemp :: Clone url :: tr ++ [RemoveTemp])
| walk_failed r tr :
    failure (Some url) r tr ->
    outcome url r
      (CacheGet (cacheKey url) :: Mkdtemp :: Clone url :: Walk :: tr ++ [RemoveTemp])
| store_failed r tr stats totalLines bytes :
    failure (Some url) r tr ->
    outcome url r
      (CacheGet (cacheKey url) :: Mkdtemp :: Clone url :: Walk
       :: CacheSet (cacheKey url) (JAnalysis stats totalLines) (cache_ttl config fl bytes)
       :: tr ++ [RemoveTemp])
| fresh stats totalLines bytes :
    outcome url {| status := 200; body := JAnalysis stats totalLines |}
      [CacheGet (cacheKey url); Mkdtemp; Clone url; Walk;
       CacheSet (cacheKey url) (JAnalysis stats totalLines) (cache_ttl config fl bytes);
       RemoveTemp].

End Shapes.

(** How often an event of a given kind occurs in a trace. *)
Definition occurrences (kind : event -> bool) (tr : list event) : nat :=
  length (List.filter kind tr).

Definition is_clone (ev : event) : bool :=
  match ev with Clone _ => true | _ => false end.
Definition is_set (ev : event) : bool :=
  match ev with CacheSet _ _ _ => true | _ => false end.

End Outcome.

(** ** More worlds for the worked examples *)


(** The listing of the root is answered and the stat that settles next is
    refused for lack of descriptors. *)
Definition starved : Route.World :=
  {| Route.now := 1000;
     Route.clone := fun _ => Route.Cloned 1000 Traverse.scenario;
     Route.choices := []; Route.refused := [false; true]; Route.deadline := None |}.

(** ** Measures of a trace of the retrying wrapper *)

(** The calls of the wrapped function in a trace, and the time waited. *)
Definition attempts (tr : list Retry.io_event) : nat :=
  length (List.filter (fun ev => match ev with Retry.Attempt => true | _ => false end) tr).

Definition waited (tr : list Retry.io_event) : Z :=
  fold_right (fun ev acc => match ev with Retry.Sleep ms => ms + acc | _ => acc end) 0 tr.

(** Splits a conjunction of six. *)
Ltac split6 := refine (conj _ (conj _ (conj _ (conj _ (conj _ _))))).

(** Case analysis on how a request ended. *)
Ltac by_outcome H :=
  let Ho := fresh "Ho" in
  let Hf := fresh "Hf" in
  destruct H as [(message & code & Hcode & ->)|(url & -> & Ho)];
  [cbn [fst snd] in *
  |cbn [fst snd] in *; inversion Ho as [? ? Hf|?|?|? ? Hf|? ? Hf|? ? ? ? ? Hf|]; subst;
   try (inversion Hf; subst)].


(** * Properties *)

(** ** Line counting *)

Section TextFacts.
Import Text.

Lemma split_cons c rest :
  split (String c rest) =
  if Ascii.eqb c CR then
    match rest with
    | String c' rest' =>
        if Ascii.eqb c' LF then "" :: split rest' else "" :: split rest
    | EmptyString => "" :: split rest
    end
  else if Ascii.eqb c LF then "" :: split rest
  else match split rest with
       | seg :: segs => String c seg :: segs
       | [] => [String c ""]
       end.
Proof. reflexivity. Qed.

Lemma terminators_cons c rest :
  terminators (String c rest) =
  if Ascii.eqb c CR then
    match rest with
    | String c' rest' =>
        if Ascii.eqb c' LF then S (terminators rest') else S (terminators rest)
    | EmptyString => S (terminators rest)
    end
  else if Ascii.eqb c LF then S (terminators rest)
  else terminators rest.
Proof. reflexivity. Qed.

(** One segment more than separators, by induction on the length of the
    content (a CRLF pair consumes two characters at once). *)
Lemma split_length_bounded (n : nat) :
  forall content, (String.length content <= n)%nat ->
    length (split content) = S (terminators content).
Proof.
  induction n as [|n IH]; intros content Hlen.
  - destruct content; simpl in *; [reflexivity | lia].
  - destruct content as [|c rest]; [reflexivity|].
    rewrite split_cons, terminators_cons.
    change (String.length (String c rest)) with (S (String.length rest)) in Hlen.
    destruct (Ascii.eqb c CR).
    + destruct rest as [|c' rest']; [reflexivity|].
      change (String.length (String c' rest')) with (S (String.length rest')) in Hlen.
      destruct (Ascii.eqb c' LF); rewrite length_cons; f_equal; apply IH;
        [lia | change (String.length (String c' rest')) with (S (String.length rest')); lia].
    + destruct (Ascii.eqb c LF).
      * rewrite length_cons. f_equal. apply IH. lia.
      * pose proof (IH rest ltac:(lia)) as Hrest.
        destruct (split rest) as [|seg segs] eqn:E; simpl in *; lia.
Qed.

Lemma split_length content :
  length (split content) = S (terminators content).
Proof. apply (split_length_bounded (String.length content)). lia. Qed.

Lemma split_plain_bounded (n : nat) :
  forall content, (String.length content <= n)%nat ->
    Forall (fun seg => plain seg = true) (split content).
Proof.
  induction n as [|n IH]; intros content Hlen.
  - destruct content; simpl in *; [|lia]. repeat constructor.
  - destruct content as [|c rest]; [repeat constructor|].
    rewrite split_cons.
    change (String.length (String c rest)) with (S (String.length rest)) in Hlen.
    destruct (Ascii.eqb c CR) eqn:Hcr.
    + destruct rest as [|c' rest']; [repeat constructor|].
      change (String.length (String c' rest')) with (S (String.length rest')) in Hlen.
      destruct (Ascii.eqb c' LF); constructor; try reflexivity; apply IH;
        [lia | change (String.length (String c' rest')) with (S (String.length rest')); lia].
    + destruct (Ascii.eqb c LF) eqn:Hlf.
      * constructor; [reflexivity|]. apply IH. lia.
      * pose proof (IH rest ltac:(lia)) as Hrest.
        destruct (split rest) as [|seg segs] eqn:E.
        -- repeat constructor. simpl. now rewrite Hcr, Hlf.
        -- inversion Hrest; subst. constructor; [|assumption].
           simpl. rewrite Hcr, Hlf. assumption.
Qed.

Lemma split_plain content :
  Forall (fun seg => plain seg = true) (split content).
Proof. apply (split_plain_bounded (String.length content)). lia. Qed.

Lemma lines_positive content : 1 <= lines content.
Proof. unfold lines. rewrite split_length. lia. Qed.

End TextFacts.

(** ** The retrying wrapper *)

Section RetryFacts.
Import Retry.
Context {W A : Type}.
Variable fn : W -> (A + jserror) * W.

(** The loop makes [k] transient failures followed by one last call whose
    outcome it returns; it stops early only on success or on an error that
    is not transient. *)
Lemma retry_loop_shape (retries : nat) :
  forall delay w,
  exists k, (k <= retries)%nat
    /\ all_transient fn k w
    /\ retry_loop fn retries delay w
       = (fst (fn (after fn k w)), snd (fn (after fn k w)),
          backoff k delay ++ [Attempt])
    /\ ((k < retries)%nat ->
        forall e, fst (fn (after fn k w)) = inr e -> transient e = false).
Proof.
  induction retries as [|r IH]; intros delay w.
  - exists 0%nat. cbn [retry_loop after backoff all_transient].
    destruct (fn w) as [[v|e] w1]; cbn; repeat split; trivial; lia.
  - cbn [retry_loop].
    destruct (fn w) as [[v|e] w1] eqn:Hfn.
    + exists 0%nat. cbn [after backoff all_transient]. rewrite Hfn. cbn.
      repeat split; trivial; try lia. discriminate.
    + destruct (transient e) eqn:Ht.
      * destruct (IH (delay * 2) w1) as (k & Hk & Hall & Heq & Hstop).
        exists (S k). cbn [after backoff all_transient]. rewrite Hfn. cbn [fst snd].
        rewrite Heq. repeat split; trivial; try lia.
        -- exists e. auto.
        -- intros Hlt. apply Hstop. lia.
      * exists 0%nat. cbn [after backoff all_transient]. rewrite Hfn. cbn.
        repeat split; trivial; try lia.
        intros _ e' [= <-]. exact Ht.
Qed.

(** C6. A call through [wrapGraceful]: with the signal already tripped it
    rejects with the cancellation error, the wrapped function is not called
    and nothing is waited for. Otherwise the wrapped function is called
    again only after a failure with code EMFILE or ENFILE, at most 10 times
    over, after waits of 100, 200, 400, ... ; the outcome of the last call
    is returned as it is, be it a value, an error of another kind, or the
    error of the eleventh call. *)
Theorem wrapGraceful_policy (aborted : bool) (w : W) :
  if aborted then wrapGraceful fn true w = (inr AbortError, w, [])
  else
    exists k, (k <= 10)%nat
      /\ all_transient fn k w
      /\ wrapGraceful fn false w
         = (fst (fn (after fn k w)), snd (fn (after fn k w)),
            backoff k 100 ++ [Attempt])
      /\ ((k < 10)%nat ->
          forall e, fst (fn (after fn k w)) = inr e -> transient e = false).
Proof.
  destruct aborted; [reflexivity|].
  unfold wrapGraceful. apply retry_loop_shape.
Qed.

End RetryFacts.

Example wrapGraceful_three_refusals :
  Retry.wrapGraceful (Retry.refused_then "data") false 3%nat
  = (inl "data", 0%nat,
     [Retry.Attempt; Retry.Sleep 100; Retry.Attempt; Retry.Sleep 200;
      Retry.Attempt; Retry.Sleep 400; Retry.Attempt]).
Proof. reflexivity. Qed.

Example wrapGraceful_eleven_refusals :
  Retry.wrapGraceful (Retry.refused_then "data") false 11%nat
  = (inr EMFILE, 0%nat, Retry.backoff 10 100 ++ [Retry.Attempt]).
Proof. reflexivity. Qed.

Example wrapGraceful_other_error :
  Retry.wrapGraceful Retry.always_missing false 0%nat
  = (inr ENOENT, 1%nat, [Retry.Attempt]).
Proof. reflexivity. Qed.

(** ** The traversal: limiter, counters, termination *)

Section TraverseFacts.
Import Limiter Traverse.
#[local] Arguments count_limited : simpl never.

Lemma count_limited_app cs ds :
  count_limited (cs ++ ds) = (count_limited cs + count_limited ds)%nat.
Proof. unfold count_limited. now rewrite List.filter_app, length_app. Qed.

Lemma count_limited_map_Limited ops :
  count_limited (map Limited ops) = length ops.
Proof.
  unfold count_limited. induction ops as [|op ops IH]; [reflexivity|].
  unfold count_limited in *. cbn. now rewrite IH.
Qed.

(** States that agree on the calls in flight and on the limiter. *)
Lemma limiter_ok_ext held s s' :
  inflight s' = inflight s -> limit s' = limit s ->
  limiter_ok held s -> limiter_ok held s'.
Proof. unfold limiter_ok. intros -> ->. trivial. Qed.

Lemma counters_ok_ext s s' :
  stats s' = stats s -> totalLines s' = totalLines s ->
  counters_ok s -> counters_ok s'.
Proof. unfold counters_ok. intros -> ->. trivial. Qed.

Lemma work_ext s s' :
  inflight s' = inflight s -> limit s' = limit s -> work s' = work s.
Proof. unfold work. intros -> ->. reflexivity. Qed.

Lemma free_permit_ok held s :
  limiter_ok (S held) s -> limiter_ok held (free_permit s).
Proof.
  unfold limiter_ok, free_permit, release.
  intros (Hc & Ha & Hle & Hq & Hqs & Hin).
  destruct (queue (limit s)) as [|job rest] eqn:Eq; cbn.
  - rewrite app_nil_r. split6; trivial; try lia. congruence.
  - rewrite count_limited_app. change (count_limited [Limited job]) with 1%nat.
    inversion Hqs; subst.
    split6; trivial; try lia.
    + intros _. apply Hq. discriminate.
    + apply Forall_app. split; [assumption|]. repeat constructor. assumption.
Qed.

Lemma limited_ok s op :
  stat_or_read op = true -> limiter_ok 0 s -> limiter_ok 0 (limited op s).
Proof.
  unfold limiter_ok, limited, submit.
  intros Hop (Hc & Ha & Hle & Hq & Hqs & Hin).
  destruct (activeCount (limit s) <? concurrency (limit s))%nat eqn:Elt; cbn.
  - apply Nat.ltb_lt in Elt.
    rewrite count_limited_app. change (count_limited [Limited op]) with 1%nat.
    split6; trivial; try lia.
    + intros Hne. specialize (Hq Hne). lia.
    + apply Forall_app. split; [assumption|]. repeat constructor. assumption.
  - apply Nat.ltb_ge in Elt. rewrite app_nil_r.
    split6; trivial; try lia.
    apply Forall_app. split; [assumption|]. repeat constructor. assumption.
Qed.

Lemma limited_all_cons op ops s :
  limited_all (op :: ops) s = limited_all ops (limited op s).
Proof.
  unfold limited_all, limited. cbn [submit_all].
  destruct (submit op (limit s)) as [l1 st1]. cbn.
  destruct (submit_all ops l1) as [l2 st2]. cbn.
  unfold set_inflight, set_limit. cbn. now rewrite map_app, app_assoc.
Qed.

Lemma limited_all_nil s : limited_all [] s = s.
Proof.
  unfold limited_all, set_inflight, set_limit. cbn. rewrite app_nil_r.
  now destruct s.
Qed.

Lemma limited_all_ok ops :
  forall s, Forall (fun op => stat_or_read op = true) ops ->
  limiter_ok 0 s -> limiter_ok 0 (limited_all ops s).
Proof.
  induction ops as [|op ops IH]; intros s Hops Hs.
  - now rewrite limited_all_nil.
  - rewrite limited_all_cons. inversion Hops; subst.
    apply IH; [assumption|]. now apply limited_ok.
Qed.

Lemma direct_ok s op held :
  stat_or_read op = false -> limiter_ok held s -> limiter_ok held (direct op s).
Proof.
  unfold limiter_ok, direct.
  intros Hop (Hc & Ha & Hle & Hq & Hqs & Hin). cbn.
  rewrite count_limited_app. change (count_limited [Direct op]) with 0%nat.
  split6; trivial; try lia.
  apply Forall_app. split; [assumption|]. repeat constructor. cbn. now rewrite Hop.
Qed.


(** *** The counters *)

Lemma sum_values_empty : sum_values ∅ = 0.
Proof. unfold sum_values. apply map_fold_empty. Qed.

Lemma sum_values_insert_fresh (m : gmap string Z) k v :
  m !! k = None -> sum_values (<[k := v]> m) = v + sum_values m.
Proof.
  intros Hk. unfold sum_values.
  rewrite map_fold_insert_L; [reflexivity | intros; lia | assumption].
Qed.

(** [stats[k] = (stats[k] || 0) + n] adds [n] to the sum of the values. *)
Lemma sum_values_count (m : gmap string Z) k n :
  sum_values (<[k := default 0 (m !! k) + n]> m) = sum_values m + n.
Proof.
  destruct (m !! k) as [v|] eqn:Hk; cbn [default].
  - pose proof (sum_values_insert_fresh (delete k m) k v (lookup_delete_eq m k)) as Hold.
    pose proof (sum_values_insert_fresh (delete k m) k (v + n) (lookup_delete_eq m k)) as Hnew.
    rewrite insert_delete_id in Hold by assumption.
    rewrite insert_delete_eq in Hnew.
    unfold id. lia.
  - rewrite sum_values_insert_fresh by assumption. lia.
Qed.

Lemma count_ok languageName n s :
  1 <= n -> counters_ok s -> counters_ok (count languageName n s).
Proof.
  unfold counters_ok, count. intros Hn [Hsum Hpos]. cbn. split.
  - rewrite sum_values_count. lia.
  - apply map_Forall_insert_2; [|assumption].
    destruct (stats s !! languageName) as [v|] eqn:Hv; cbn [default].
    + specialize (Hpos _ _ Hv). cbn in Hpos. unfold id. lia.
    + lia.
Qed.

(** *** Work left *)

Lemma weight_pos e : (2 <= weight e)%nat.
Proof. destruct e; cbn; lia. Qed.

Lemma weight_op_pos op : (1 <= weight_op op)%nat.
Proof. destruct op as [e|e|l e]; cbn; pose proof (weight_pos e); lia. Qed.

Lemma list_sum_cons (n : nat) l : list_sum (n :: l) = (n + list_sum l)%nat.
Proof. reflexivity. Qed.

Lemma list_sum_one (n : nat) : list_sum [n] = n.
Proof. unfold list_sum. cbn. lia. Qed.

Lemma work_build cs l s :
  work (set_inflight cs (set_limit l s))
  = (list_sum (map (fun c => weight_op (op_of c)) cs)
     + list_sum (map weight_op (queue l)))%nat.
Proof. reflexivity. Qed.

Lemma work_free_permit s : work (free_permit s) = work s.
Proof.
  unfold free_permit, release.
  destruct (queue (limit s)) as [|job rest] eqn:Eq;
    rewrite work_build; unfold work; rewrite Eq;
    cbn [queue map]; rewrite map_app, list_sum_app.
  - cbn [map]. change (list_sum []) with 0%nat. lia.
  - cbn [map op_of]. rewrite list_sum_one.
    change (list_sum (weight_op job :: map weight_op rest))
      with (weight_op job + list_sum (map weight_op rest))%nat.
    lia.
Qed.

Lemma work_limited op s : work (limited op s) = (work s + weight_op op)%nat.
Proof.
  unfold limited, submit.
  destruct (activeCount (limit s) <? concurrency (limit s))%nat;
    rewrite work_build; unfold work; cbn [queue map];
    rewrite !map_app, !list_sum_app; cbn [map op_of];
    rewrite ?list_sum_one; change (list_sum []) with 0%nat; lia.
Qed.

Lemma work_limited_all ops :
  forall s, work (limited_all ops s) = (work s + list_sum (map weight_op ops))%nat.
Proof.
  induction ops as [|op ops IH]; intros s.
  - rewrite limited_all_nil. change (list_sum (map weight_op [])) with 0%nat. lia.
  - rewrite limited_all_cons, IH, work_limited.
    change (list_sum (map weight_op (op :: ops)))
      with (weight_op op + list_sum (map weight_op ops))%nat.
    lia.
Qed.

Lemma work_direct op s : work (direct op s) = (work s + weight_op op)%nat.
Proof.
  unfold work, direct. cbn [inflight limit set_inflight].
  rewrite map_app, list_sum_app. cbn [map op_of]. rewrite list_sum_one. lia.
Qed.


(** *** One settled call *)

Lemma answer_inv {A} (r : A + jserror) s r' s1 :
  answer r s = (r', s1) ->
  inflight s1 = inflight s /\ limit s1 = limit s /\ stats s1 = stats s
  /\ totalLines s1 = totalLines s /\ rejected s1 = rejected s
  /\ ((hd false (emfile s) = false /\ r' = r /\ emfile s1 = tl (emfile s))
      \/ (emfile s = true :: emfile s1 /\ r' = inr EMFILE)).
Proof.
  unfold answer. destruct (emfile s) as [|[] rest] eqn:En; intros [= <- <-]; cbn.
  - repeat split; trivial. left. rewrite En. auto.
  - repeat split; trivial. right. auto.
  - repeat split; trivial. left. auto.
Qed.

Lemma weight_Dir f listing :
  weight (Dir f listing) = (2 + list_sum (map weight listing))%nat.
Proof.
  cbn [weight]. f_equal.
  induction listing as [|x r IH]; [reflexivity|].
  rewrite IH. reflexivity.
Qed.

Lemma tasks_weight files :
  (list_sum (map weight_op (tasks files)) <= list_sum (map weight files))%nat.
Proof.
  unfold tasks. induction files as [|e files IH]; [reflexivity|].
  cbn [List.filter].
  change (list_sum (map weight (e :: files)))
    with (weight e + list_sum (map weight files))%nat.
  destruct (negb (String.eqb (entry_name e) ".git")).
  - cbn [map]. 
    change (list_sum (weight_op (Stat e) :: ?l)) with (weight e + list_sum l)%nat.
    cbn [weight_op].
    change (list_sum (weight e :: ?l)) with (weight e + list_sum l)%nat. lia.
  - lia.
Qed.

Lemma tasks_limited files :
  Forall (fun op => stat_or_read op = true) (tasks files).
Proof. unfold tasks. apply Forall_map, Forall_forall. reflexivity. Qed.

Lemma readdir_weight d files :
  readdir d = inl files -> (S (list_sum (map weight files)) = weight_op (Readdir d))%nat.
Proof.
  destruct d; cbn [readdir]; intros [= <-]. cbn [weight_op].
  rewrite weight_Dir. reflexivity.
Qed.

Section Settle.
Context {builtins : Builtins}.
Variable EXTENSION_MAP : gmap string LanguageInfo.
Abbreviation settle := (settle EXTENSION_MAP).
Abbreviation step_at := (step_at EXTENSION_MAP).

Lemma settle_limiter_ok c s :
  well_issued c = true ->
  limiter_ok (if is_limited c then 1 else 0) s ->
  limiter_ok 0 (settle c s).
Proof.
  intros Hc Hs.
  destruct c as [[d|e|l e]|[d|e|l e]]; try discriminate Hc; cbn [is_limited] in Hs;
    cbn [Traverse.settle].
  - destruct (answer (readdir d) s) as [[files|error] s1] eqn:Ha;
      apply answer_inv in Ha as (Hi & Hl & _).
    + apply limited_all_ok; [apply tasks_limited|].
      now apply (limiter_ok_ext 0 s).
    + apply (limiter_ok_ext 0 s); trivial.
  - destruct (answer (stat e) s) as [[st|error] s1] eqn:Ha;
      apply answer_inv in Ha as (Hi & Hl & _);
      pose proof (free_permit_ok 0 s1 (limiter_ok_ext 1 s s1 Hi Hl Hs)) as Hfree.
    + destruct (isDirectory st); [now apply direct_ok|].
      destruct (isFile st); [|assumption].
      destruct (languageOf EXTENSION_MAP (entry_name e)); [|assumption].
      now apply limited_ok.
    + apply (limiter_ok_ext 0 (free_permit s1)); trivial.
  - destruct (answer (readFile e) s) as [[content|error] s1] eqn:Ha;
      apply answer_inv in Ha as (Hi & Hl & _).
    + apply free_permit_ok. apply (limiter_ok_ext 1 s); trivial.
    + apply free_permit_ok. apply (limiter_ok_ext 1 s); trivial.
Qed.


(** The helpers that only touch the limiter and the calls in flight. *)
Lemma free_permit_data s :
  stats (free_permit s) = stats s /\ totalLines (free_permit s) = totalLines s
  /\ rejected (free_permit s) = rejected s /\ emfile (free_permit s) = emfile s.
Proof. unfold free_permit. destruct (release (limit s)). auto. Qed.

Lemma limited_data op s :
  stats (limited op s) = stats s /\ totalLines (limited op s) = totalLines s
  /\ rejected (limited op s) = rejected s /\ emfile (limited op s) = emfile s.
Proof. unfold limited. destruct (submit op (limit s)). auto. Qed.

Lemma limited_all_data ops s :
  stats (limited_all ops s) = stats s
  /\ totalLines (limited_all ops s) = totalLines s
  /\ rejected (limited_all ops s) = rejected s
  /\ emfile (limited_all ops s) = emfile s.
Proof. unfold limited_all. destruct (submit_all ops (limit s)). auto. Qed.

Lemma settle_counters_ok c s : counters_ok s -> counters_ok (settle c s).
Proof.
  intros Hs.
  destruct c as [[d|e|l e]|[d|e|l e]]; cbn [Traverse.settle]; trivial.
  - destruct (answer (readdir d) s) as [[files|error] s1] eqn:Ha;
      apply answer_inv in Ha as (_ & _ & Hst & Htl & _).
    + destruct (limited_all_data (tasks files) s1) as (H1 & H2 & _).
      apply (counters_ok_ext s); congruence.
    + apply (counters_ok_ext s); assumption.
  - destruct (free_permit_data s) as (H1 & H2 & _).
    apply (counters_ok_ext s); congruence.
  - destruct (answer (stat e) s) as [[st|error] s1] eqn:Ha;
      apply answer_inv in Ha as (_ & _ & Hst & Htl & _);
      destruct (free_permit_data s1) as (H1 & H2 & _).
    + assert (counters_ok (free_permit s1)) as Hfree
        by (apply (counters_ok_ext s); congruence).
      destruct (isDirectory st); [exact Hfree|].
      destruct (isFile st); [|exact Hfree].
      destruct (languageOf EXTENSION_MAP (entry_name e)) as [l|]; [|exact Hfree].
      destruct (limited_data (ReadFile l e) (free_permit s1)) as (H3 & H4 & _).
      apply (counters_ok_ext (free_permit s1)); assumption.
    + apply (counters_ok_ext s); cbn; congruence.
  - destruct (answer (readFile e) s) as [[content|error] s1] eqn:Ha;
      apply answer_inv in Ha as (_ & _ & Hst & Htl & _).
    + assert (counters_ok (count l (Text.lines content) s1)) as Hcount.
      { apply count_ok; [apply lines_positive|].
        apply (counters_ok_ext s); assumption. }
      destruct (free_permit_data (count l (Text.lines content) s1)) as (H1 & H2 & _).
      apply (counters_ok_ext (count l (Text.lines content) s1)); assumption.
    + destruct (free_permit_data s1) as (H1 & H2 & _).
      apply (counters_ok_ext s); congruence.
Qed.

(** Settling a call uses up some of the work that the call stood for. *)
Lemma settle_work c s :
  (work (settle c s) < work s + weight_op (op_of c))%nat.
Proof.
  pose proof (weight_op_pos (op_of c)) as Hpos.
  destruct c as [[d|e|l e]|[d|e|l e]]; cbn [Traverse.settle op_of] in *; try lia.
  - destruct (answer (readdir d) s) as [[files|error] s1] eqn:Ha;
      apply answer_inv in Ha as (Hi & Hl & _ & _ & _ & Hr).
    + rewrite work_limited_all, (work_ext s s1) by assumption.
      pose proof (tasks_weight files) as Ht.
      destruct Hr as [(_ & Hr & _)|(_ & Hr)]; [|discriminate Hr].
      symmetry in Hr. apply readdir_weight in Hr. lia.
    + rewrite (work_ext s (reject error s1)) by assumption. lia.
  - rewrite work_free_permit. lia.
  - pose proof (weight_pos e) as He. cbn [weight_op] in *.
    destruct (answer (stat e) s) as [[st|error] s1] eqn:Ha;
      apply answer_inv in Ha as (Hi & Hl & _);
      pose proof (work_free_permit s1) as Hfree;
      rewrite (work_ext s s1) in Hfree by assumption.
    + destruct (isDirectory st).
      { rewrite work_direct, Hfree. cbn [weight_op]. lia. }
      destruct (isFile st); [|lia].
      destruct (languageOf EXTENSION_MAP (entry_name e)) as [l|]; [|lia].
      rewrite work_limited, Hfree. cbn [weight_op]. lia.
    + rewrite (work_ext (free_permit s1) (reject error (free_permit s1))) by reflexivity.
      lia.
  - cbn [weight_op] in *.
    destruct (answer (readFile e) s) as [[content|error] s1] eqn:Ha;
      apply answer_inv in Ha as (Hi & Hl & _);
      rewrite work_free_permit.
    + rewrite (work_ext s (count l (Text.lines content) s1)) by assumption. lia.
    + rewrite (work_ext s s1) by assumption. lia.
Qed.

(** *** One step of the event loop *)

Lemma count_limited_delete (cs : list call) i c :
  cs !! i = Some c ->
  count_limited cs = ((if is_limited c then 1 else 0) + count_limited (delete i cs))%nat.
Proof.
  revert i. induction cs as [|x cs IH]; intros [|i] Hi; try discriminate Hi.
  - cbn in Hi. injection Hi as ->. cbn [delete list_delete].
    change (c :: cs) with ([c] ++ cs).
    rewrite count_limited_app. destruct c; reflexivity.
  - cbn in Hi. cbn [delete list_delete].
    change (x :: cs) with ([x] ++ cs).
    change (x :: delete i cs) with ([x] ++ delete i cs).
    rewrite !count_limited_app, (IH i Hi). lia.
Qed.

Lemma taken_out_ok s i c :
  inflight s !! i = Some c -> limiter_ok 0 s ->
  well_issued c = true
  /\ limiter_ok (if is_limited c then 1 else 0)
                (set_inflight (delete i (inflight s)) s).
Proof.
  intros Hi (Hc & Ha & Hle & Hq & Hqs & Hin). split.
  - rewrite Forall_lookup in Hin. exact (Hin i c Hi).
  - unfold limiter_ok. cbn [inflight limit set_inflight].
    rewrite (count_limited_delete _ i c Hi) in Ha.
    split6; trivial.
    now apply Forall_delete.
Qed.

Lemma taken_out_work s i c :
  inflight s !! i = Some c ->
  work s = (work (set_inflight (delete i (inflight s)) s) + weight_op (op_of c))%nat.
Proof.
  intros Hi. unfold work. cbn [inflight limit set_inflight].
  enough (forall (cs : list call) i, cs !! i = Some c ->
            list_sum (map (fun c => weight_op (op_of c)) cs)
            = (list_sum (map (fun c => weight_op (op_of c)) (delete i cs))
               + weight_op (op_of c))%nat) as Hgen
    by (rewrite (Hgen _ _ Hi); lia).
  clear. intros cs. induction cs as [|x cs IH]; intros [|i] Hi; try discriminate Hi.
  - cbn in Hi. injection Hi as ->. cbn [delete list_delete map].
    rewrite list_sum_cons. lia.
  - cbn in Hi. cbn [delete list_delete map].
    rewrite !list_sum_cons, (IH i Hi). apply Nat.add_assoc.
Qed.

Lemma step_at_limiter_ok i s s' :
  step_at i s = Some s' -> limiter_ok 0 s -> limiter_ok 0 s'.
Proof.
  unfold Traverse.step_at. destruct (inflight s !! i) as [c|] eqn:Hi; [|discriminate].
  intros [= <-] Hs.
  destruct (taken_out_ok s i c Hi Hs) as [Hc Hs0].
  now apply settle_limiter_ok.
Qed.

Lemma step_at_counters_ok i s s' :
  step_at i s = Some s' -> counters_ok s -> counters_ok s'.
Proof.
  unfold Traverse.step_at. destruct (inflight s !! i) as [c|]; [|discriminate].
  intros [= <-] Hs. apply settle_counters_ok.
  apply (counters_ok_ext s); trivial.
Qed.

Lemma step_at_work i s s' :
  step_at i s = Some s' -> (work s' < work s)%nat.
Proof.
  unfold Traverse.step_at. destruct (inflight s !! i) as [c|] eqn:Hi; [|discriminate].
  intros [= <-]. rewrite (taken_out_work s i c Hi).
  apply settle_work.
Qed.


(** *** Whole runs *)

Lemma start_limiter_ok root refused : limiter_ok 0 (start root refused).
Proof.
  unfold limiter_ok, start. cbn.
  split6; trivial; try lia; try congruence. repeat constructor.
Qed.

Lemma start_counters_ok root refused : counters_ok (start root refused).
Proof.
  unfold counters_ok, start. cbn. split.
  - symmetry. apply sum_values_empty.
  - apply map_Forall_empty.
Qed.

Lemma reachable_ok root refused s :
  reachable EXTENSION_MAP root refused s -> limiter_ok 0 s /\ counters_ok s.
Proof.
  induction 1 as [|s s' _ [Hl Hc] [i Hstep]].
  - split; [apply start_limiter_ok | apply start_counters_ok].
  - split; [eapply step_at_limiter_ok | eapply step_at_counters_ok]; eassumption.
Qed.

Lemma run_reachable root refused fuel :
  forall choices s,
  reachable EXTENSION_MAP root refused s ->
  reachable EXTENSION_MAP root refused (run EXTENSION_MAP fuel choices s).
Proof.
  induction fuel as [|fuel IH]; intros choices s Hs; [exact Hs|].
  cbn [run]. destruct (rejected s); [exact Hs|].
  destruct (inflight s) as [|c cs] eqn:Hin; [exact Hs|].
  destruct (step_at _ s) as [s'|] eqn:Hstep; [|exact Hs].
  apply IH. eapply reach_step; [exact Hs|]. eexists. exact Hstep.
Qed.

(** With fuel for all the work at hand, the loop runs until the walk has
    rejected or no call is left in flight. *)
Lemma run_settles_all fuel :
  forall choices s, (work s <= fuel)%nat ->
  rejected (run EXTENSION_MAP fuel choices s) = None ->
  inflight (run EXTENSION_MAP fuel choices s) = [].
Proof.
  induction fuel as [|fuel IH]; intros choices s Hfuel.
  - cbn [run]. intros _. destruct (inflight s) as [|c cs] eqn:Hin; [reflexivity|].
    exfalso. unfold work in Hfuel. rewrite Hin in Hfuel. cbn [map] in Hfuel.
    rewrite list_sum_cons in Hfuel. pose proof (weight_op_pos (op_of c)). lia.
  - cbn [run]. destruct (rejected s) as [error|] eqn:Hrej; [congruence|].
    destruct (inflight s) as [|c cs] eqn:Hin; [intros _; exact Hin|].
    set (i := (hd 0%nat choices mod length (c :: cs))%nat).
    assert (i < length (inflight s))%nat as Hi.
    { rewrite Hin. apply Nat.mod_upper_bound. discriminate. }
    destruct (lookup_lt_is_Some_2 _ _ Hi) as [c' Hc'].
    assert (step_at i s
            = Some (settle c' (set_inflight (delete i (inflight s)) s))) as Hstep
      by (unfold Traverse.step_at; now rewrite Hc').
    rewrite Hstep. apply IH.
    pose proof (step_at_work _ _ _ Hstep). lia.
Qed.

Lemma settled_queue_empty s :
  limiter_ok 0 s -> inflight s = [] -> queue (limit s) = [].
Proof.
  intros (Hc & Ha & _ & Hq & _) Hin.
  destruct (queue (limit s)) as [|job rest] eqn:Eq; [reflexivity|].
  rewrite Hin in Ha. change (count_limited []) with 0%nat in Ha.
  specialize (Hq ltac:(discriminate)). lia.
Qed.

(** The traversal ends: whatever the order in which calls settle, the loop
    of [traverse] reaches a state in which the walk has rejected, or in
    which nothing is in flight and nothing waits for a permit. *)
Lemma traverse_settles root refused choices :
  let s := run EXTENSION_MAP (work (start root refused)) choices (start root refused) in
  reachable EXTENSION_MAP root refused s
  /\ (rejected s = None -> inflight s = [] /\ queue (limit s) = []).
Proof.
  intros s.
  assert (reachable EXTENSION_MAP root refused s) as Hreach
    by (apply run_reachable; constructor).
  split; [assumption|]. intros Hrej.
  assert (inflight s = []) as Hin by (apply run_settles_all; [lia | assumption]).
  split; [assumption|].
  apply settled_queue_empty; [|assumption].
  now apply (reachable_ok root refused).
Qed.

(** The call picked by the schedule is there to settle. *)
Lemma step_at_scheduled n s :
  inflight s <> [] ->
  exists c,
    inflight s !! (n mod length (inflight s))%nat = Some c
    /\ step_at (n mod length (inflight s))%nat s
       = Some (settle c (set_inflight
                           (delete (n mod length (inflight s))%nat (inflight s)) s)).
Proof.
  intros Hin.
  assert (n mod length (inflight s) < length (inflight s))%nat as Hi.
  { apply Nat.mod_upper_bound. destruct (inflight s); [contradiction | discriminate]. }
  destruct (lookup_lt_is_Some_2 _ _ Hi) as [c Hc].
  exists c. split; [exact Hc|]. unfold Traverse.step_at. now rewrite Hc.
Qed.

(** The loop stands still once the walk has rejected or nothing is left. *)
Lemma run_stuck fuel choices s :
  rejected s <> None \/ inflight s = [] ->
  run EXTENSION_MAP fuel choices s = s.
Proof.
  intros Hs. destruct fuel as [|fuel]; [reflexivity|]. cbn [run].
  destruct (rejected s); [reflexivity|].
  destruct Hs as [Hs|Hs]; [contradiction|]. now rewrite Hs.
Qed.

(** A run can be cut in two. *)
Lemma run_add k :
  forall m choices s,
  run EXTENSION_MAP (k + m) choices s
  = run EXTENSION_MAP m (drop k choices) (run EXTENSION_MAP k choices s).
Proof.
  induction k as [|k IH]; intros m choices s; [reflexivity|].
  cbn [Nat.add run].
  destruct (rejected s) as [error|] eqn:Hrej.
  { symmetry. apply run_stuck. left. congruence. }
  destruct (inflight s) as [|c cs] eqn:Hin.
  { symmetry. apply run_stuck. now right. }
  destruct (step_at_scheduled (hd 0%nat choices) s) as (c' & _ & Hstep);
    [congruence|].
  rewrite Hin in Hstep. rewrite Hstep, IH.
  destruct choices as [|x xs]; cbn [tl]; [now rewrite !drop_nil | reflexivity].
Qed.

(** Every step of a run that is still under way has used up some work. *)
Lemma run_work k :
  forall choices s,
  rejected (run EXTENSION_MAP k choices s) = None ->
  inflight (run EXTENSION_MAP k choices s) <> [] ->
  (work (run EXTENSION_MAP k choices s) + k <= work s)%nat.
Proof.
  induction k as [|k IH]; intros choices s; [cbn [run]; lia|].
  cbn [run].
  destruct (rejected s) as [error|] eqn:Hrej; [congruence|].
  destruct (inflight s) as [|c cs] eqn:Hin; [congruence|].
  destruct (step_at_scheduled (hd 0%nat choices) s) as (c' & _ & Hstep);
    [congruence|].
  rewrite Hin in Hstep. rewrite Hstep. intros Hr Hi.
  specialize (IH _ _ Hr Hi).
  pose proof (step_at_work _ _ _ Hstep). lia.
Qed.

End Settle.

End TraverseFacts.

(** ** The claims about the traversal *)

Section TraverseClaims.
Import Limiter Traverse.
Context {builtins : Builtins}.
Variable EXTENSION_MAP : gmap string LanguageInfo.

(** C4. Whatever the tree, the refusals and the order in which calls
    settle: when the traversal succeeds, [totalLines] is the sum of the
    values of [stats], and no value is negative. *)
Theorem traverse_total_is_sum root refused choices st total :
  traverse EXTENSION_MAP root refused choices = inl (st, total) ->
  total = sum_values st /\ map_Forall (fun _ v => 0 <= v) st.
Proof.
  unfold traverse.
  destruct (traverse_settles EXTENSION_MAP root refused choices) as (Hreach & _).
  cbv zeta in Hreach.
  set (s := run _ _ _ _) in *.
  destruct (rejected s); [discriminate|]. intros [= <- <-].
  destruct (reachable_ok _ _ _ _ Hreach) as [_ [Hsum Hpos]].
  split; [exact Hsum|].
  intros k v Hk. specialize (Hpos k v Hk). cbn in Hpos. lia.
Qed.

(** The state just before a refused call is answered. *)
Lemma settle_refused rest s :
  emfile s = true :: rest ->
  (forall d, settle EXTENSION_MAP (Direct (Readdir d)) s
             = reject EMFILE (set_emfile rest s))
  /\ (forall e, settle EXTENSION_MAP (Limited (Stat e)) s
                = reject EMFILE (free_permit (set_emfile rest s)))
  /\ (forall l e, settle EXTENSION_MAP (Limited (ReadFile l e)) s
                  = free_permit (set_emfile rest s)).
Proof.
  intros Hn. unfold settle, answer. rewrite Hn. auto.
Qed.

Lemma stats_and_reads_limited cs :
  Forall (fun c => well_issued c = true) cs ->
  Forall (fun c => stat_or_read (op_of c) = true -> is_limited c = true) cs
  /\ (length (stats_and_reads cs) <= count_limited cs)%nat.
Proof.
  unfold stats_and_reads, count_limited.
  induction 1 as [|c cs Hc _ [IH1 IH2]]; [split; [constructor | reflexivity]|].
  assert (stat_or_read (op_of c) = true -> is_limited c = true) as Hlim.
  { destruct c as [op|op]; cbn in *; [|reflexivity].
    intros Hop. rewrite Hop in Hc. discriminate Hc. }
  split; [constructor; assumption|].
  cbn [List.filter].
  destruct (stat_or_read (op_of c)) eqn:Hop.
  - rewrite (Hlim eq_refl). cbn [length]. lia.
  - destruct (is_limited c); cbn [length]; lia.
Qed.

(** Handing a permit on only moves the head of the queue into flight. *)
Lemma free_permit_calls s :
  map op_of (inflight (free_permit s)) ++ queue (limit (free_permit s))
  = map op_of (inflight s) ++ queue (limit s).
Proof.
  unfold free_permit, release.
  destruct (queue (limit s)) as [|job rest]; cbn [inflight limit set_inflight set_limit queue map].
  - now rewrite !app_nil_r.
  - rewrite map_app, <- app_assoc. reflexivity.
Qed.

(** What a refused call leaves behind: the calls that were pending
    beside it and no other, the counters as they were, and, unless the
    call was a read, a walk that has rejected. *)
Lemma refused_step i c rest s :
  well_issued c = true ->
  inflight s !! i = Some c -> emfile s = true :: rest ->
  exists s',
    step_at EXTENSION_MAP i s = Some s'
    /\ map op_of (inflight s') ++ queue (limit s')
       = map op_of (delete i (inflight s)) ++ queue (limit s)
    /\ stats s' = stats s /\ totalLines s' = totalLines s
    /\ rejected s'
       = (if is_read (op_of c) then rejected s
          else Some (default EMFILE (rejected s))).
Proof.
  intros Hc Hi Hn. eexists. unfold step_at. rewrite Hi. split; [reflexivity|].
  set (s0 := set_inflight (delete i (inflight s)) s).
  assert (emfile s0 = true :: rest) as Hn0 by exact Hn.
  destruct (settle_refused rest s0 Hn0) as (Hdir & Hstat & Hread).
  assert (forall t, rejected (reject EMFILE t) = Some (default EMFILE (rejected t)))
    as Hrej by (intros t; cbn; now destruct (rejected t)).
  destruct c as [[d|e|l e]|[d|e|l e]]; try discriminate Hc; cbn [op_of is_read].
  - rewrite Hdir. rewrite Hrej. repeat split.
  - rewrite Hstat. rewrite Hrej.
    destruct (free_permit_data (set_emfile rest s0)) as (H1 & H2 & H3 & _).
    pose proof (free_permit_calls (set_emfile rest s0)) as Hcalls.
    cbn [reject inflight limit stats totalLines]. rewrite H1, H2, H3.
    repeat split. exact Hcalls.
  - rewrite Hread.
    destruct (free_permit_data (set_emfile rest s0)) as (H1 & H2 & H3 & _).
    pose proof (free_permit_calls (set_emfile rest s0)) as Hcalls.
    rewrite H1, H2, H3. repeat split. exact Hcalls.
Qed.

(** A listing or a stat that is refused while the walk is under way makes
    [traverse] reject with that refusal. *)
Lemma refusal_rejects_walk root refused k choices c rest :
  let s := run EXTENSION_MAP k choices (start root refused) in
  rejected s = None ->
  inflight s !! (hd 0%nat (drop k choices) mod length (inflight s))%nat = Some c ->
  emfile s = true :: rest ->
  is_read (op_of c) = false ->
  traverse EXTENSION_MAP root refused choices = inr EMFILE.
Proof.
  intros s Hrej Hc Hn Hop.
  assert (reachable EXTENSION_MAP root refused s) as Hreach
    by (apply run_reachable; constructor).
  destruct (reachable_ok _ _ _ _ Hreach) as [(_ & _ & _ & _ & _ & Hin) _].
  assert (well_issued c = true) as Hwell.
  { rewrite Forall_forall in Hin. apply Hin. eapply list_elem_of_lookup_2, Hc. }
  assert (inflight s <> []) as Hne by (intros E; rewrite E in Hc; discriminate Hc).
  pose proof (run_work EXTENSION_MAP k choices (start root refused) Hrej Hne) as Hwork.
  fold s in Hwork.
  assert (1 <= work s)%nat as Hpos.
  { unfold work. destruct (inflight s) as [|c0 cs]; [contradiction|].
    cbn [map]. rewrite list_sum_cons. pose proof (weight_op_pos (op_of c0)). lia. }
  destruct (refused_step _ c rest s Hwell Hc Hn) as (s' & Hstep & _ & _ & _ & Hrej').
  rewrite Hop, Hrej in Hrej'. cbn in Hrej'.
  unfold traverse.
  replace (work (start root refused))
    with (k + S (work (start root refused) - k - 1))%nat by lia.
  rewrite run_add. fold s. cbn [run]. rewrite Hrej.
  destruct (inflight s) as [|c0 cs] eqn:Hfl; [contradiction|].
  rewrite Hstep, run_stuck by (left; congruence).
  now rewrite Hrej'.
Qed.

Lemma limited_inflight op s :
  inflight (limited op s)
  = inflight s
    ++ (if (activeCount (limit s) <? concurrency (limit s))%nat
        then [Limited op] else []).
Proof.
  unfold limited, submit.
  destruct (activeCount (limit s) <? concurrency (limit s))%nat; reflexivity.
Qed.

(** The calls that [limit] starts at once are among those submitted, and
    with a permit free the first of them is started. *)
Lemma limited_all_inflight ops :
  forall s, exists started,
    inflight (limited_all ops s) = inflight s ++ map Limited started
    /\ Forall (fun op => In op ops) started
    /\ (ops <> [] -> (activeCount (limit s) < concurrency (limit s))%nat ->
        started <> []).
Proof.
  induction ops as [|op ops IH]; intros s.
  - exists []. rewrite limited_all_nil, app_nil_r. repeat split; [constructor | congruence].
  - rewrite limited_all_cons.
    destruct (IH (limited op s)) as (started & Hin & Hall & _).
    assert (Forall (fun x => In x (op :: ops)) started) as Hall'.
    { eapply Forall_impl; [exact Hall|]. intros x Hx. now right. }
    rewrite Hin, limited_inflight.
    destruct (activeCount (limit s) <? concurrency (limit s))%nat eqn:Hfree.
    + exists (op :: started). rewrite <- app_assoc. cbn [map app].
      repeat split; [|discriminate].
      constructor; [now left | exact Hall'].
    + exists started. rewrite app_nil_r. repeat split; [exact Hall'|].
      intros _ Hlt. apply Nat.ltb_ge in Hfree. lia.
Qed.

(** In a directory with an entry to look at, the first call to settle
    after the listing is a stat; refused, it makes [traverse] reject. *)
Lemma refused_first_stat_rejects d listing rest choices :
  tasks listing <> [] ->
  traverse EXTENSION_MAP (Dir d listing) (false :: true :: rest) choices
  = inr EMFILE.
Proof.
  intros Htasks.
  set (root := Dir d listing). set (refused := false :: true :: rest).
  set (s0 := set_emfile (true :: rest) (set_inflight [] (start root refused))).
  assert (run EXTENSION_MAP 1 choices (start root refused)
          = limited_all (tasks listing) s0) as Hrun.
  { cbn [run start rejected inflight length]. rewrite Nat.mod_1_r.
    unfold step_at. cbn [inflight lookup list_lookup delete list_delete].
    reflexivity. }
  destruct (limited_all_inflight (tasks listing) s0) as (started & Hin & Hall & Hne).
  specialize (Hne Htasks ltac:(cbn; lia)). cbn [inflight s0 set_inflight set_emfile app] in Hin.
  destruct (limited_all_data (tasks listing) s0) as (_ & _ & Hrej & Hem).
  assert (inflight (limited_all (tasks listing) s0) <> []) as Hflight
    by (rewrite Hin; destruct started; [contradiction | discriminate]).
  destruct (step_at_scheduled EXTENSION_MAP (hd 0%nat (drop 1 choices))
              (limited_all (tasks listing) s0) Hflight) as (c & Hc & _).
  apply (refusal_rejects_walk root refused 1 choices c rest); cbv zeta;
    rewrite ?Hrun; trivial.
  apply list_elem_of_lookup_2 in Hc. rewrite Hin in Hc.
  apply list_elem_of_fmap in Hc as (op & -> & Hop).
  rewrite Forall_forall in Hall. apply Hall in Hop.
  unfold tasks in Hop. apply in_map_iff in Hop as (e & <- & _). reflexivity.
Qed.

(** C1, as the code has it. In every state the traversal can reach, every
    stat and every file read in flight was issued inside the limiter, and
    so were the calls that wait for a permit; the stats and reads in flight
    are never more than the limiter counts, which is never more than 50.
    No call goes through the retrying wrapper. When the promise of a call
    rejects with EMFILE, the call is not issued again: the calls pending
    afterwards are those that were pending beside it; nothing is counted;
    a read leaves the walk as it was, and a listing or a stat rejects
    it, so that [traverse] rejects with EMFILE when this is the first
    failure. *)
Theorem traverse_call_discipline root refused s :
  reachable EXTENSION_MAP root refused s ->
  Forall (fun c => stat_or_read (op_of c) = true -> is_limited c = true)
         (inflight s)
  /\ Forall (fun op => stat_or_read op = true) (queue (limit s))
  /\ (length (stats_and_reads (inflight s)) <= activeCount (limit s))%nat
  /\ (activeCount (limit s) <= 50)%nat
  /\ (forall i c rest,
      inflight s !! i = Some c -> emfile s = true :: rest ->
      exists s',
        step_at EXTENSION_MAP i s = Some s'
        /\ map op_of (inflight s') ++ queue (limit s')
           = map op_of (delete i (inflight s)) ++ queue (limit s)
        /\ stats s' = stats s /\ totalLines s' = totalLines s
        /\ rejected s'
           = (if is_read (op_of c) then rejected s
              else Some (default EMFILE (rejected s))))
  /\ (forall k choices c rest,
      s = run EXTENSION_MAP k choices (start root refused) ->
      rejected s = None ->
      inflight s !! (hd 0%nat (drop k choices) mod length (inflight s))%nat = Some c ->
      emfile s = true :: rest ->
      is_read (op_of c) = false ->
      traverse EXTENSION_MAP root refused choices = inr EMFILE).
Proof.
  intros Hreach.
  destruct (reachable_ok _ _ _ _ Hreach) as [(Hc & Ha & Hle & _ & Hq & Hin) _].
  destruct (stats_and_reads_limited _ Hin) as [Hlim Hlen].
  split; [exact Hlim|]. split; [exact Hq|]. split; [lia|]. split; [lia|]. split.
  - intros i c rest Hi Hn. apply (refused_step i c rest s); trivial.
    rewrite Forall_forall in Hin. apply Hin. eapply list_elem_of_lookup_2, Hi.
  - intros k choices c rest -> Hrej Hi Hn Hop.
    now apply (refusal_rejects_walk root refused k choices c rest).
Qed.

Lemma read_settles languageName file content s :
  refusing s = false ->
  let s' := settle EXTENSION_MAP (Limited (ReadFile languageName (File file content))) s in
  stats s' = <[languageName := default 0 (stats s !! languageName) + Text.lines content]> (stats s)
  /\ totalLines s' = totalLines s + Text.lines content.
Proof.
  intros Hn s'. subst s'. unfold settle, answer. unfold refusing in Hn.
  destruct (emfile s) as [|[] rest]; try discriminate Hn; cbn [readFile];
    match goal with
    | |- context [free_permit ?t] =>
        destruct (free_permit_data t) as (Hst & Htl & _); rewrite Hst, Htl
    end; split; reflexivity.
Qed.

(** C5. A read that succeeds adds to the entry of the file's language and
    to [totalLines] the number of segments of the content, and touches no
    other entry. The segments are one more than the separators CRLF, CR
    and LF found from left to right, and no segment contains a CR or an
    LF. The empty content has one segment. *)
Theorem read_counts_segments languageName file content s :
  refusing s = false ->
  let s' := settle EXTENSION_MAP (Limited (ReadFile languageName (File file content))) s in
  let n := Z.of_nat (length (Text.split content)) in
  stats s' !! languageName = Some (default 0 (stats s !! languageName) + n)
  /\ (forall other, other <> languageName -> stats s' !! other = stats s !! other)
  /\ totalLines s' = totalLines s + n
  /\ length (Text.split content) = S (Text.terminators content)
  /\ Forall (fun seg => Text.plain seg = true) (Text.split content)
  /\ Text.lines "" = 1.
Proof.
  intros Hn s' n. subst s' n.
  destruct (read_settles languageName file content s Hn) as [Hst Htl].
  cbv zeta in Hst, Htl. rewrite Hst, Htl. unfold Text.lines.
  repeat split.
  - apply lookup_insert_eq.
  - intros other Hne. now apply lookup_insert_ne.
  - apply split_length.
  - apply split_plain.
Qed.

End TraverseClaims.

Section TraverseExamples.
#[local] Existing Instance ascii_builtins.
Import Limiter Traverse.

(** Section 8, first scenario: [a.py] with 3 lines, [b.py] with 5 and a
    [README]; nothing below [.git] is looked at. *)
Example scenario_python :
  traverse sample_EXTENSION_MAP scenario [] [] = inl (<["Python" := 8]> ∅, 8)
  /\ traverse sample_EXTENSION_MAP scenario [] [2; 0; 1; 1; 0]%nat
     = inl (<["Python" := 8]> ∅, 8).
Proof. split; vm_compute; reflexivity. Qed.

(** Section 8, second scenario: a [Dockerfile] with 10 lines. *)
Example scenario_dockerfile :
  traverse sample_EXTENSION_MAP
    (Dir "" [File "Dockerfile"
               ("FROM node" +:+ String Text.LF ("1" +:+ String Text.LF
                ("2" +:+ String Text.LF ("3" +:+ String Text.LF
                ("4" +:+ String Text.LF ("5" +:+ String Text.LF
                ("6" +:+ String Text.LF ("7" +:+ String Text.LF
                ("8" +:+ String Text.LF "9")))))))))]) [] []
  = inl (<["Dockerfile" := 10]> ∅, 10).
Proof. vm_compute. reflexivity. Qed.

(** Section 8, third scenario: an empty file counts as one line. *)
Example scenario_empty_file :
  traverse sample_EXTENSION_MAP (Dir "" [File "empty.js" ""]) [] []
  = inl (<["JavaScript" := 1]> ∅, 1).
Proof. vm_compute. reflexivity. Qed.

(** A file that cannot be read is left out and the walk goes on; a stat
    that fails rejects the walk. *)
Example unreadable_file_is_skipped :
  traverse sample_EXTENSION_MAP
    (Dir "" [FileUnreadable "x.py" (SystemError "EACCES" "permission denied");
             File "y.py" "pass"]) [] []
  = inl (<["Python" := 1]> ∅, 1).
Proof. vm_compute. reflexivity. Qed.

Example failed_stat_rejects :
  traverse sample_EXTENSION_MAP (Dir "" [Unstatable "x.py" ENOENT; File "y.py" "pass"]) [] []
  = inr ENOENT.
Proof. vm_compute. reflexivity. Qed.

Lemma traverse_total_is_sum_witness :
  traverse sample_EXTENSION_MAP scenario [] [] = inl (<["Python" := 8]> ∅, 8)
  /\ 8 = sum_values (<["Python" := 8]> ∅)
  /\ map_Forall (fun _ v => 0 <= v) (<["Python" := 8]> (∅ : gmap string Z)).
Proof.
  split; [vm_compute; reflexivity|].
  apply (traverse_total_is_sum sample_EXTENSION_MAP scenario [] []).
  vm_compute. reflexivity.
Defined.

(** The promise of a read rejects with EMFILE: the file is left out and
    the walk goes on to its end. *)
Example refused_read_is_skipped :
  traverse sample_EXTENSION_MAP (Dir "" [File "a.py" "pass"; File "b.py" "pass"])
           [false; false; false; true] []
  = inl (<["Python" := 1]> ∅, 1)
  /\ traverse sample_EXTENSION_MAP (Dir "" [File "a.py" "pass"; File "b.py" "pass"])
           [] []
     = inl (<["Python" := 2]> ∅, 2).
Proof. split; vm_compute; reflexivity. Qed.

(** A directory of 51 files, its listing answered: 50 stats are in
    flight, each with a permit, and the last one waits. The system then
    refuses the stat that settles next. *)
Lemma traverse_call_discipline_witness :
  let s := run sample_EXTENSION_MAP 1 [] (start (many_files 51) [false; true]) in
  length (stats_and_reads (inflight s)) = 50%nat
  /\ length (queue (limit s)) = 1%nat
  /\ (length (stats_and_reads (inflight s)) <= activeCount (limit s))%nat
  /\ (activeCount (limit s) <= 50)%nat
  /\ (exists s',
        step_at sample_EXTENSION_MAP 7 s = Some s'
        /\ map op_of (inflight s') ++ queue (limit s')
           = map op_of (delete 7%nat (inflight s)) ++ queue (limit s)
        /\ stats s' = stats s /\ totalLines s' = totalLines s
        /\ rejected s' = Some EMFILE)
  /\ traverse sample_EXTENSION_MAP (many_files 51) [false; true] [] = inr EMFILE.
Proof.
  intros s.
  assert (reachable sample_EXTENSION_MAP (many_files 51) [false; true] s) as Hreach
    by (apply run_reachable, reach_start).
  destruct (traverse_call_discipline sample_EXTENSION_MAP (many_files 51)
              [false; true] s Hreach) as (_ & _ & Hheld & Hcap & Hstep & Hwalk).
  split; [vm_compute; reflexivity|]. split; [vm_compute; reflexivity|].
  split; [exact Hheld|]. split; [exact Hcap|]. split.
  - apply (Hstep 7%nat (Limited (Stat (File "7.py" "pass"))) []);
      vm_compute; reflexivity.
  - apply (Hwalk 1%nat [] (Limited (Stat (File "0.py" "pass"))) []);
      vm_compute; reflexivity.
Defined.

Lemma read_counts_segments_witness :
  let s' := settle sample_EXTENSION_MAP
              (Limited (ReadFile "Python" (File "a.py" ("x" +:+ String Text.LF "y"))))
              (start scenario []) in
  stats s' !! "Python" = Some 2 /\ totalLines s' = 2.
Proof.
  destruct (read_counts_segments sample_EXTENSION_MAP "Python" "a.py"
              ("x" +:+ String Text.LF "y") (start scenario []) eq_refl)
    as (Hstats & _ & Htotal & _).
  split; [exact Hstats | exact Htotal].
Defined.

(** C1 fails on the code as it is stated. In a directory with 51
    subdirectories, once the listing of the root and the first stat have
    settled, 51 filesystem calls are in flight: the limiter holds its 50
    stats, and the listing of the first subdirectory runs beside them,
    outside the limiter. And one refusal for lack of descriptors rejects the
    whole traversal, where the same call behind [wrapGraceful] waits 100
    units and succeeds at the second attempt. *)
Lemma listing_bypasses_limiter :
  (exists s, reachable sample_EXTENSION_MAP (wide 51) [] s
     /\ (50 < length (inflight s))%nat
     /\ activeCount (limit s) = 50%nat
     /\ exists d, In (Direct (Readdir d)) (inflight s))
  /\ traverse sample_EXTENSION_MAP scenario [true] [] = inr EMFILE
  /\ Retry.wrapGraceful (Retry.refused_then "listing") false 1%nat
     = (inl "listing", 0%nat, [Retry.Attempt; Retry.Sleep 100; Retry.Attempt]).
Proof.
  split; [|split; vm_compute; reflexivity].
  eexists. split.
  - eapply reach_step; [eapply reach_step; [apply reach_start|]|];
      exists 0%nat; vm_compute; reflexivity.
  - split; [vm_compute; lia|]. split; [vm_compute; reflexivity|].
    exists (Dir "d0" []). vm_compute. auto 60.
Qed.

End TraverseExamples.

(** ** The memory cache *)

Section CacheFacts.
Import Cache.

Lemma find_without key es :
  List.find (fun e => String.eqb (lru_key e) key) (without key es) = None.
Proof.
  unfold without. induction es as [|e es IH]; [reflexivity|].
  cbn [List.filter]. destruct (String.eqb (lru_key e) key) eqn:He; cbn [negb].
  - exact IH.
  - cbn [List.find]. now rewrite He.
Qed.

(** The time to live that [MemoryCacheImpl.set] gives an entry, in
    milliseconds: the argument when it is a number other than 0, the
    store's default otherwise. *)
Lemma memory_set_entries key value ttl_s now c :
  (0 < max c)%nat -> value <> JUndefined ->
  exists rest,
    entries (snd (memory_set key value ttl_s now c))
    = {| lru_key := key; lru_value := value; lru_start := now;
         lru_ttl := effective_ttl ttl_s c |} :: rest.
Proof.
  intros Hmax Hv. unfold memory_set, lru_set, effective_ttl. cbn [snd].
  destruct (max c) as [|m] eqn:Hm; [lia|].
  assert (forall o, default (ttl c) o
                    = match o with Some t => t | None => ttl c end) as Hd
    by (now intros [t|]).
  destruct value; try congruence; cbn [entries firstn]; eexists;
    (f_equal; f_equal; rewrite Hd;
     destruct ttl_s as [t|]; [cbn [truthy]; destruct (t =? 0)|]; reflexivity).
Qed.

Lemma fresh_not_stale later e :
  later - lru_start e <= lru_ttl e -> is_stale later e = false.
Proof.
  intros H. unfold is_stale.
  apply andb_false_iff. right. apply Z.ltb_ge. lia.
Qed.

Lemma memory_get_fresh key value ttl_s now later c :
  (0 < max c)%nat ->
  later - now <= effective_ttl ttl_s c ->
  fst (memory_get key later (snd (memory_set key value ttl_s now c)))
  = inl (if truthy value then value else JNull).
Proof.
  intros Hmax Hfresh.
  assert (value = JUndefined \/ value <> JUndefined) as [->|Hv]
    by (destruct value; auto; right; discriminate).
  - unfold memory_get, memory_set, lru_set, lru_get. cbn [snd entries].
    rewrite find_without. reflexivity.
  - destruct (memory_set_entries key value ttl_s now c Hmax Hv) as [rest Hes].
    unfold memory_get, lru_get. rewrite Hes. cbn [List.find lru_key].
    rewrite String.eqb_refl.
    rewrite fresh_not_stale by (cbn [lru_start lru_ttl]; exact Hfresh).
    reflexivity.
Qed.

Lemma lru_get_max key now c : max (snd (lru_get key now c)) = max c.
Proof.
  unfold lru_get. destruct (List.find _ _) as [e|]; [|reflexivity].
  now destruct (is_stale now e).
Qed.

(** C10. What [MemoryCacheImpl.get] returns for a key that
    [MemoryCacheImpl.set] has stored, read before the entry's time to live
    is over: the stored value when it is truthy, and [null] when it is
    falsy, as for 0, the empty string and [false]. *)
Theorem memory_get_falsy_is_null key ttl_s now later c :
  (0 < max c)%nat ->
  later - now <= effective_ttl ttl_s c ->
  (forall value,
     fst (memory_get key later (snd (memory_set key value ttl_s now c)))
     = inl (if truthy value then value else JNull))
  /\ Forall (fun value =>
               fst (memory_get key later (snd (memory_set key value ttl_s now c)))
               = inl JNull)
            [JNum 0; JStr ""; JBool false; JNull; JUndefined].
Proof.
  intros Hmax Hfresh.
  assert (forall value,
            fst (memory_get key later (snd (memory_set key value ttl_s now c)))
            = inl (if truthy value then value else JNull)) as Hget
    by (intros value; now apply memory_get_fresh).
  split; [exact Hget|].
  repeat constructor; rewrite Hget; reflexivity.
Qed.

End CacheFacts.

Lemma memory_get_falsy_is_null_witness :
  map (fun v => fst (Cache.memory_get "k" 5000
                       (snd (Cache.memory_set "k" v (Some 10) 0 Cache.MemoryCacheImpl))))
      [JNum 0; JStr ""; JBool false; JNum 7; JNegative "late"]
  = [inl JNull; inl JNull; inl JNull; inl (JNum 7); inl (JNegative "late")].
Proof.
  destruct (memory_get_falsy_is_null "k" (Some 10) 0 5000 Cache.MemoryCacheImpl)
    as [Hget _]; [vm_compute; lia | vm_compute; discriminate |].
  cbn [map]. rewrite !Hget. reflexivity.
Defined.

(** ** The route handler *)

Section RouteFacts.
Import Cache Route.
Variable config : Config.
Variable parseURL : string -> option URL.
Variable fl : Q -> Q.
Context {builtins : Builtins}.
Variable EXTENSION_MAP : gmap string Traverse.LanguageInfo.
Context {C : Type} {service : CacheService C}.

Abbreviation POST := (POST config parseURL fl EXTENSION_MAP).
Abbreviation lookup := (lookup config fl EXTENSION_MAP).
Abbreviation analyze := (analyze config fl EXTENSION_MAP).
Abbreviation on_error := (on_error config).

Lemma includes_In (h : string) (l : list string) :
  existsb (String.eqb h) l = true <-> In h l.
Proof.
  rewrite existsb_exists. split.
  - intros (x & Hx & Heq). apply String.eqb_eq in Heq. now subst.
  - intros Hin. exists h. split; [assumption | apply String.eqb_refl].
Qed.

Lemma POST_accepted w repoUrl c :
  accepted config parseURL repoUrl ->
  POST w (Body (Some repoUrl)) c = lookup repoUrl w c.
Proof.
  intros (Hne & p & Hp & Hproto & Hhost). unfold Route.POST.
  apply String.eqb_neq in Hne. rewrite Hne, Hp.
  apply includes_In in Hhost. rewrite Hhost. cbn [negb].
  destruct Hproto as [-> | ->]; reflexivity.
Qed.

(** C8. A request whose URL is missing, empty, unparseable, of a scheme
    other than http and https, or of a host outside the allow-list is
    answered with status 400, and nothing has been done by then: the cache
    is as it was and was not asked, no directory was made and nothing was
    fetched. *)
Theorem unacceptable_rejected_at_once w repoUrl c :
  unacceptable config parseURL repoUrl ->
  exists message,
    POST w (Body repoUrl) c = (error_response message 400, c, []).
Proof.
  unfold unacceptable, Route.POST.
  destruct repoUrl as [url|]; [|intros _; eexists; reflexivity].
  destruct (String.eqb_spec url "") as [->|Hne]; [intros _; eexists; reflexivity|].
  intros [Hempty|Hbad]; [contradiction|].
  destruct (parseURL url) as [p|]; [|eexists; reflexivity].
  destruct Hbad as [[Hhttp Hhttps]|Hhost].
  - apply String.eqb_neq in Hhttp, Hhttps. rewrite Hhttp, Hhttps.
    eexists. reflexivity.
  - destruct (negb (String.eqb (protocol p) "http:")
              && negb (String.eqb (protocol p) "https:"));
      [eexists; reflexivity|].
    destruct (existsb (String.eqb (hostname p)) (ALLOWED_DOMAINS config)) eqn:Hin.
    + apply includes_In in Hin. contradiction.
    + eexists. reflexivity.
Qed.

(** A body that cannot be read ends in the [catch] block, with nothing
    done either. *)
Lemma malformed_body_untouched error w c :
  exists r, POST w (Malformed error) c = (r, c, [])
            /\ (status r = 408 \/ status r = 500).
Proof.
  unfold Route.POST, Route.on_error.
  destruct (is_abort error); eexists; (split; [reflexivity|]); auto.
Qed.

(** *** The cache key *)

Lemma cacheKey_injective u1 u2 : cacheKey u1 = cacheKey u2 -> u1 = u2.
Proof. cbv [cacheKey String.append]. now intros [= ->]. Qed.

Lemma on_error_events repoUrl error w c :
  cache_events_use (cacheKey repoUrl) (snd (on_error (Some repoUrl) error w c)).
Proof.
  unfold Route.on_error, cache_events_use.
  destruct (is_abort error); [|constructor].
  destruct (negb (String.eqb repoUrl "")); [|constructor].
  destruct (set _ _ _ _ c) as [o c']. cbn [snd]. repeat constructor.
Qed.

Lemma analyze_events repoUrl w c :
  cache_events_use (cacheKey repoUrl) (snd (analyze repoUrl w c)).
Proof.
  unfold Route.analyze.
  assert (forall error c' before,
            cache_events_use (cacheKey repoUrl) before ->
            cache_events_use (cacheKey repoUrl)
              (snd (let '(r, c'', tr) := on_error (Some repoUrl) error w c' in
                    (r, c'', before ++ tr ++ [RemoveTemp])))) as Hfailed.
  { intros error c' before Hb.
    pose proof (on_error_events repoUrl error w c') as He.
    destruct (on_error (Some repoUrl) error w c') as [[r c''] tr]. cbn [snd] in *.
    unfold cache_events_use in *. rewrite !Forall_app. repeat split; trivial.
    repeat constructor. }
  destruct (git_clone w repoUrl) as [b tree|error].
  - destruct (Traverse.traverse _ _ _ _) as [[st total]|error].
    + destruct (set _ _ _ _ c) as [[error|] c'].
      * apply Hfailed. repeat constructor.
      * cbn [snd]. repeat constructor.
    + apply Hfailed. repeat constructor.
  - apply Hfailed. repeat constructor.
Qed.

Lemma lookup_events repoUrl w c :
  cache_events_use (cacheKey repoUrl) (snd (lookup repoUrl w c)).
Proof.
  unfold Route.lookup.
  destruct (get _ _ c) as [[cachedData|error] c'].
  - destruct (truthy cachedData).
    + destruct (get_error cachedData); try (repeat constructor).
      destruct (truthy (JStr s)); repeat constructor.
    + pose proof (analyze_events repoUrl w c') as Ha.
      destruct (analyze repoUrl w c') as [[r c''] tr]. cbn [snd] in *.
      constructor; [reflexivity | exact Ha].
  - pose proof (on_error_events repoUrl error w c') as He.
    destruct (on_error (Some repoUrl) error w c') as [[r c''] tr]. cbn [snd] in *.
    constructor; [reflexivity | exact He].
Qed.

(** C3, as the code has it. The key is the literal prefix [repo:] before
    the URL exactly as the request gave it: every cache call of one
    request, be it the lookup, the write of the result or the write of the
    timeout, uses that one key, and two different URL strings never share
    a key. *)
Theorem cache_key_is_raw_url w repoUrl c :
  cacheKey repoUrl = "repo:" +:+ repoUrl
  /\ cache_events_use ("repo:" +:+ repoUrl) (snd (POST w (Body (Some repoUrl)) c))
  /\ (forall other, cacheKey other = cacheKey repoUrl -> other = repoUrl).
Proof.
  split; [reflexivity|]. split; [|intros other; apply cacheKey_injective].
  unfold Route.POST.
  destruct (String.eqb repoUrl ""); [constructor|].
  destruct (parseURL repoUrl) as [p|]; [|constructor].
  destruct (_ && _); [constructor|].
  destruct (negb _); [constructor|].
  apply lookup_events.
Qed.

(** *** The time to live of a stored result *)









End RouteFacts.

(** *** Timeouts *)

Section TimeoutFacts.
Import Cache Route.
Variable config : Config.
Variable parseURL : string -> option URL.
Variable fl : Q -> Q.
Context {builtins : Builtins}.
Variable EXTENSION_MAP : gmap string Traverse.LanguageInfo.

Lemma timeout_message_truthy : truthy (JStr (timeout_message config)) = true.
Proof. reflexivity. Qed.

(** A fetch that is cancelled, on any cache backend. *)
Lemma cancelled_fetch {C} {service : CacheService C} w url c cachedData c' error :
  accepted config parseURL url ->
  get (cacheKey url) (now w) c = (inl cachedData, c') ->
  truthy cachedData = false ->
  git_clone w url = CloneRejected error ->
  is_abort error = true ->
  POST config parseURL fl EXTENSION_MAP w (Body (Some url)) c
  = (error_response (timeout_message config) 408,
     snd (set (cacheKey url) (JNegative (timeout_message config))
              (Some (CACHE_TTL_ON_TIMEOUT config)) (now w) c'),
     [CacheGet (cacheKey url); Mkdtemp; Clone url;
      CacheSet (cacheKey url) (JNegative (timeout_message config))
               (CACHE_TTL_ON_TIMEOUT config);
      RemoveTemp]).
Proof.
  intros Hacc Hget Hmiss Hclone Habort.
  rewrite (POST_accepted _ _ _ _ _ _ _ Hacc).
  unfold lookup. rewrite Hget, Hmiss.
  unfold analyze. rewrite Hclone.
  unfold on_error. rewrite Habort.
  destruct Hacc as [Hne _]. apply String.eqb_neq in Hne. rewrite Hne. cbn [negb].
  destruct (set _ _ _ _ c') as [o c'']. reflexivity.
Qed.

(** A cached failure is answered from the cache. *)
Lemma negative_hit {C} {service : CacheService C} w url c c' message :
  accepted config parseURL url ->
  get (cacheKey url) (now w) c = (inl (JNegative message), c') ->
  message <> "" ->
  POST config parseURL fl EXTENSION_MAP w (Body (Some url)) c
  = (error_response message 400, c', [CacheGet (cacheKey url)]).
Proof.
  intros Hacc Hget Hne.
  rewrite (POST_accepted _ _ _ _ _ _ _ Hacc).
  unfold lookup. rewrite Hget. cbn [truthy get_error].
  apply String.eqb_neq in Hne. rewrite Hne. reflexivity.
Qed.

End TimeoutFacts.

Section TimeoutClaim.
Import Cache Route.
Variable config : Config.
Variable parseURL : string -> option URL.
Variable fl : Q -> Q.
Context {builtins : Builtins}.
Variable EXTENSION_MAP : gmap string Traverse.LanguageInfo.

(** C2, as the code has it. A request that passes the checks and misses
    the cache, and whose fetch is cancelled: on every cache backend the
    answer is 408 with the message "Analysis timed out after N seconds",
    and the one write made to the cache is that message as a negative
    result, under the key of the lookup, with the time to live configured
    for timeouts. With the memory backend, the next request for the same
    URL that comes before this time to live is over is answered from the
    cache, with the same message and status 400, and nothing is fetched or
    walked. *)
Theorem cancelled_fetch_is_cached url :
  accepted config parseURL url ->
  (forall C (service : CacheService C) w c cachedData c' error,
     get (cacheKey url) (now w) c = (inl cachedData, c') ->
     truthy cachedData = false ->
     git_clone w url = CloneRejected error ->
     is_abort error = true ->
     POST config parseURL fl EXTENSION_MAP w (Body (Some url)) c
     = (error_response (timeout_message config) 408,
        snd (set (cacheKey url) (JNegative (timeout_message config))
                 (Some (CACHE_TTL_ON_TIMEOUT config)) (now w) c'),
        [CacheGet (cacheKey url); Mkdtemp; Clone url;
         CacheSet (cacheKey url) (JNegative (timeout_message config))
                  (CACHE_TTL_ON_TIMEOUT config);
         RemoveTemp]))
  /\ (forall w1 w2 (c : LRUCache) error,
        (0 < max c)%nat ->
        truthy (fst (lru_get (cacheKey url) (now w1) c)) = false ->
        git_clone w1 url = CloneRejected error ->
        is_abort error = true ->
        0 < CACHE_TTL_ON_TIMEOUT config ->
        now w2 - now w1 <= CACHE_TTL_ON_TIMEOUT config * 1000 ->
        let first :=
          POST config parseURL fl EXTENSION_MAP w1 (Body (Some url)) c in
        let second :=
          POST config parseURL fl EXTENSION_MAP w2 (Body (Some url))
               (snd (fst first)) in
        status (fst (fst first)) = 408
        /\ fst (fst second) = error_response (timeout_message config) 400
        /\ snd second = [CacheGet (cacheKey url)]).
Proof.
  intros Hacc. split.
  - intros C service w c cachedData c' error. now apply cancelled_fetch.
  - intros w1 w2 c error Hmax Hmiss Hclone Habort Hpos Hwindow first second.
    subst first second.
    destruct (lru_get (cacheKey url) (now w1) c) as [v c1] eqn:Hlru.
    cbn [fst] in Hmiss.
    assert (get (cacheKey url) (now w1) c = (inl JNull, c1)) as Hget.
    { cbn [get Memory]. unfold memory_get. now rewrite Hlru, Hmiss. }
    rewrite (cancelled_fetch config parseURL fl EXTENSION_MAP w1 url c JNull c1 error
               Hacc Hget eq_refl Hclone Habort).
    cbn [fst snd status error_response].
    split; [reflexivity|].
    set (c2 := snd (set _ _ _ _ c1)).
    assert (max c1 = max c) as Hmax1
      by (pose proof (lru_get_max (cacheKey url) (now w1) c) as H;
          now rewrite Hlru in H).
    assert (fst (get (cacheKey url) (now w2) c2)
            = inl (JNegative (timeout_message config))) as Hhit.
    { subst c2. cbn [get set Memory].
      rewrite memory_get_fresh; [reflexivity | lia |].
      unfold effective_ttl.
      destruct (Z.eqb_spec (CACHE_TTL_ON_TIMEOUT config) 0); lia. }
    destruct (get (cacheKey url) (now w2) c2) as [got c3] eqn:Hget2.
    cbn [fst] in Hhit. subst got.
    rewrite (negative_hit config parseURL fl EXTENSION_MAP w2 url c2 c3
               (timeout_message config) Hacc Hget2); [split; reflexivity|].
    discriminate.
Qed.

End TimeoutClaim.

(** *** Worked requests *)

Section RouteExamples.
#[local] Existing Instance ascii_builtins.
Import Cache Route.

Abbreviation sample_POST :=
  (POST defaults PlainURL.parse exact Traverse.sample_EXTENSION_MAP).

Lemma github_accepted :
  accepted defaults PlainURL.parse "https://github.com/a/b".
Proof.
  split; [discriminate|]. eexists. split; [vm_compute; reflexivity|].
  split; [right; reflexivity | left; reflexivity].
Qed.

Example fresh_analysis :
  sample_POST calm (Body (Some "https://github.com/a/b")) MemoryCacheImpl
  = ({| status := 200; body := JAnalysis (<["Python" := 8]> ∅) 8 |},
     snd (memory_set "repo:https://github.com/a/b"
                     (JAnalysis (<["Python" := 8]> ∅) 8) (Some 86400) 1000
                     MemoryCacheImpl),
     [CacheGet "repo:https://github.com/a/b"; Mkdtemp;
      Clone "https://github.com/a/b"; Walk;
      CacheSet "repo:https://github.com/a/b" (JAnalysis (<["Python" := 8]> ∅) 8) 86400;
      RemoveTemp]).
Proof. vm_compute. reflexivity. Qed.

Example missing_repository :
  sample_POST gone (Body (Some "https://github.com/a/b")) MemoryCacheImpl
  = (error_response "HTTP Error: 404 Not Found" 500, MemoryCacheImpl,
     [CacheGet "repo:https://github.com/a/b"; Mkdtemp;
      Clone "https://github.com/a/b"; RemoveTemp]).
Proof. vm_compute. reflexivity. Qed.

Example disallowed_host :
  sample_POST calm (Body (Some "https://example.org/a/b")) MemoryCacheImpl
  = (error_response
       "Domain not allowed. Supported providers: github.com, gitlab.com, bitbucket.org"
       400,
     MemoryCacheImpl, []).
Proof. vm_compute. reflexivity. Qed.

Lemma unacceptable_rejected_at_once_witness :
  exists message,
    sample_POST calm (Body (Some "ftp://github.com/a/b")) MemoryCacheImpl
    = (error_response message 400, MemoryCacheImpl, []).
Proof.
  apply (unacceptable_rejected_at_once defaults PlainURL.parse exact
           Traverse.sample_EXTENSION_MAP calm (Some "ftp://github.com/a/b")
           MemoryCacheImpl).
  right. vm_compute. left. split; discriminate.
Defined.

Lemma cancelled_fetch_is_cached_witness :
  let first :=
    sample_POST slow_fetch (Body (Some "https://github.com/a/b")) MemoryCacheImpl in
  let second :=
    sample_POST an_hour_later (Body (Some "https://github.com/a/b"))
                (snd (fst first)) in
  status (fst (fst first)) = 408
  /\ fst (fst second) = error_response "Analysis timed out after 60 seconds" 400
  /\ snd second = [CacheGet "repo:https://github.com/a/b"].
Proof.
  destruct (cancelled_fetch_is_cached defaults PlainURL.parse exact
              Traverse.sample_EXTENSION_MAP "https://github.com/a/b"
              github_accepted) as [_ Hmemory].
  apply (Hmemory slow_fetch an_hour_later MemoryCacheImpl AbortError);
    vm_compute; first [reflexivity | lia | discriminate].
Defined.

(** C2 fails on the code as it is stated, in two ways. With caching
    disabled the timeout is answered 408 but nothing is kept, and the next
    request for the URL fetches the repository again. And when the timer
    fires only after the fetch, while the tree is walked, nothing in the
    walk looks at the signal: the request is answered 200 and the result is
    stored as a success. *)
Lemma timeout_not_always_cached :
  (let first :=
     sample_POST slow_fetch (Body (Some "https://github.com/a/b")) Disabled in
   let second :=
     sample_POST an_hour_later (Body (Some "https://github.com/a/b"))
                 (snd (fst first)) in
   status (fst (fst first)) = 408
   /\ status (fst (fst second)) = 200
   /\ snd second
      = [CacheGet "repo:https://github.com/a/b"; Mkdtemp;
         Clone "https://github.com/a/b"; Walk;
         CacheSet "repo:https://github.com/a/b" (JAnalysis (<["Python" := 8]> ∅) 8) 86400;
         RemoveTemp])
  /\ (deadline slow_walk = Some Traversing
      /\ fst (sample_POST slow_walk (Body (Some "https://github.com/a/b")) MemoryCacheImpl)
         = fst (sample_POST calm (Body (Some "https://github.com/a/b")) MemoryCacheImpl)
      /\ status (fst (fst (sample_POST slow_walk (Body (Some "https://github.com/a/b"))
                                       MemoryCacheImpl))) = 200).
Proof. repeat split; vm_compute; reflexivity. Qed.

(** C3 fails on the code as it is stated: the key is not made from a
    normalised URL. Two spellings of one URL, equal once parsed, have
    different keys, so that the second request misses the entry stored by
    the first and fetches the repository again. *)
Lemma cache_key_not_normalised :
  href <$> PlainURL.parse "HTTPS://GitHub.com/a/b"
    = href <$> PlainURL.parse "https://github.com/a/b"
  /\ cacheKey "HTTPS://GitHub.com/a/b" <> cacheKey "https://github.com/a/b"
  /\ (let first :=
        sample_POST calm (Body (Some "https://github.com/a/b")) MemoryCacheImpl in
      let second :=
        sample_POST an_hour_later (Body (Some "HTTPS://GitHub.com/a/b"))
                    (snd (fst first)) in
      let again :=
        sample_POST an_hour_later (Body (Some "https://github.com/a/b"))
                    (snd (fst first)) in
      In (Clone "HTTPS://GitHub.com/a/b") (snd second)
      /\ snd again = [CacheGet "repo:https://github.com/a/b"]).
Proof.
  split; [vm_compute; reflexivity|]. split; [discriminate|].
  split; vm_compute; auto.
Qed.



End RouteExamples.


(** * Further properties *)

(** ** The walk as a recursive function *)

Section SequentialFacts.
Import Limiter Traverse Sequential.

(** *** Adding tables of counts *)

Lemma madd_lookup m1 m2 (k : string) :
  madd m1 m2 !! k
  = match m1 !! k, m2 !! k with
    | Some a, Some b => Some (a + b)
    | Some a, None => Some a
    | None, o => o
    end.
Proof.
  unfold madd. rewrite lookup_union_with.
  destruct (m1 !! k), (m2 !! k); reflexivity.
Qed.

Lemma madd_comm m1 m2 : madd m1 m2 = madd m2 m1.
Proof.
  apply map_eq. intros k. rewrite !madd_lookup.
  destruct (m1 !! k), (m2 !! k); trivial. f_equal. lia.
Qed.

Lemma madd_assoc m1 m2 m3 : madd m1 (madd m2 m3) = madd (madd m1 m2) m3.
Proof.
  apply map_eq. intros k. rewrite !madd_lookup.
  destruct (m1 !! k), (m2 !! k), (m3 !! k); trivial. f_equal. lia.
Qed.

Lemma madd_empty_r m : madd m ∅ = m.
Proof.
  apply map_eq. intros k. rewrite madd_lookup, lookup_empty.
  now destruct (m !! k).
Qed.

Lemma madd_empty_l m : madd ∅ m = m.
Proof. now rewrite madd_comm, madd_empty_r. Qed.

(** [stats[k] = (stats[k] || 0) + n] is the addition of the table that
    holds [n] under [k]. *)
Lemma count_is_madd (m : gmap string Z) k n :
  <[k := default 0 (m !! k) + n]> m = madd m {[ k := n ]}.
Proof.
  apply map_eq. intros j. rewrite madd_lookup.
  destruct (decide (k = j)) as [<-|Hne].
  - rewrite lookup_insert_eq, lookup_singleton_eq.
    destruct (m !! k); reflexivity.
  - rewrite lookup_insert_ne, lookup_singleton_ne by assumption.
    now destruct (m !! j).
Qed.

Lemma msum_app l1 l2 : msum (l1 ++ l2) = madd (msum l1) (msum l2).
Proof.
  induction l1 as [|m l1 IH]; cbn [msum app foldr].
  - now rewrite madd_empty_l.
  - unfold msum in *. cbn [foldr app]. now rewrite IH, madd_assoc.
Qed.

Lemma msum_Permutation l1 l2 : l1 ≡ₚ l2 -> msum l1 = msum l2.
Proof.
  unfold msum. induction 1 as [|x l l' _ IH|x y l|l l' l'' _ IH1 _ IH2];
    cbn [foldr]; try congruence.
  rewrite !madd_assoc, (madd_comm y x). reflexivity.
Qed.


(** *** The calls still to settle *)

Lemma pending_free_permit s : pending (free_permit s) = pending s.
Proof. apply free_permit_calls. Qed.

Lemma pending_limited op s : pending (limited op s) ≡ₚ op :: pending s.
Proof.
  unfold pending, limited, submit.
  destruct (activeCount (limit s) <? concurrency (limit s))%nat;
    cbn [inflight limit set_inflight set_limit queue map].
  - rewrite map_app. cbn [map op_of]. rewrite <- app_assoc. cbn [app].
    symmetry. apply Permutation_middle.
  - rewrite app_nil_r, app_assoc. symmetry. apply Permutation_cons_append.
Qed.

Lemma pending_limited_all ops :
  forall s, pending (limited_all ops s) ≡ₚ ops ++ pending s.
Proof.
  induction ops as [|op ops IH]; intros s.
  - now rewrite limited_all_nil.
  - rewrite limited_all_cons, IH, pending_limited. cbn [app].
    symmetry. apply Permutation_middle.
Qed.

Lemma pending_direct op s : pending (direct op s) ≡ₚ op :: pending s.
Proof.
  unfold pending, direct. cbn [inflight limit set_inflight].
  rewrite map_app. cbn [map op_of]. rewrite <- app_assoc. cbn [app].
  symmetry. apply Permutation_middle.
Qed.

Lemma pending_taken_out s i c :
  inflight s !! i = Some c ->
  pending s ≡ₚ op_of c :: pending (set_inflight (delete i (inflight s)) s).
Proof.
  intros Hi. unfold pending. cbn [inflight limit set_inflight].
  rewrite (delete_Permutation _ _ _ Hi) at 1. reflexivity.
Qed.

Lemma pending_ext s s' :
  inflight s' = inflight s -> limit s' = limit s -> pending s' = pending s.
Proof. unfold pending. now intros -> ->. Qed.


Section Effect.
Context {builtins : Builtins}.
Variable EXTENSION_MAP : gmap string LanguageInfo.
Abbreviation tally := (tally EXTENSION_MAP).
Abbreviation contribution := (contribution EXTENSION_MAP).
Abbreviation settle := (settle EXTENSION_MAP).
Abbreviation owed := (owed EXTENSION_MAP).
Abbreviation balanced := (balanced EXTENSION_MAP).

Lemma tally_Dir f listing :
  tally (Dir f listing) = msum (map contribution (tasks listing)).
Proof.
  cbn [Sequential.tally]. unfold tasks, msum.
  induction listing as [|x r IH]; [reflexivity|].
  cbn [List.filter]. destruct (negb (String.eqb (entry_name x) ".git")).
  - cbn [map foldr Sequential.contribution]. now rewrite IH.
  - exact IH.
Qed.

Lemma sound_Dir f listing :
  sound (Dir f listing) = forallb sound_op (tasks listing).
Proof.
  cbn [sound]. unfold tasks.
  induction listing as [|x r IH]; [reflexivity|].
  cbn [List.filter]. destruct (String.eqb (entry_name x) ".git"); cbn [negb orb andb].
  - exact IH.
  - cbn [map forallb sound_op]. now rewrite IH.
Qed.

(** What one settled call does, when the system refuses nothing: the
    calls it starts, what it adds to [stats], and whether it rejects. *)
Lemma settle_effect c s :
  well_issued c = true -> emfile s = [] ->
  exists spawned delta,
    pending (settle c s) ≡ₚ spawned ++ pending s
    /\ stats (settle c s) = madd (stats s) delta
    /\ madd delta (msum (map contribution spawned)) = contribution (op_of c)
    /\ emfile (settle c s) = []
    /\ (if sound_op (op_of c)
        then forallb sound_op spawned = true
             /\ rejected (settle c s) = rejected s
        else forallb sound_op spawned = false
             \/ rejected (settle c s) <> None).
Proof.
  intros Hc Hn.
  assert (forall e (r : option jserror),
            match r with Some e0 => Some e0 | None => Some e end <> None) as Hrej
    by (intros e [e0|]; discriminate).
  destruct c as [[d|e|l e]|[d|e|l e]]; try discriminate Hc;
    cbn [Traverse.settle op_of]; unfold answer; rewrite Hn.
  - (* a listing *)
    destruct d as [f files|f err|f content|f err|f|f err]; cbn [readdir];
      try (exists [], ∅; cbn [app map sound_op sound_root];
           rewrite madd_empty_r; cbn [Sequential.contribution msum foldr];
           rewrite ?madd_empty_r;
           repeat split; trivial; right; apply Hrej).
    exists (tasks files), ∅.
    destruct (limited_all_data (tasks files) s) as (Hst & _ & Hr & He).
    rewrite pending_limited_all, Hst, He, Hr, madd_empty_r, madd_empty_l.
    cbn [Sequential.contribution sound_op sound_root].
    rewrite tally_Dir, sound_Dir.
    repeat split; trivial.
    destruct (forallb sound_op (tasks files)); auto.
  - (* a stat *)
    destruct (free_permit_data s) as (Hst & _ & Hr & He).
    destruct e as [f files|f err|f content|f err|f|f err];
      cbn [stat isDirectory isFile entry_name].
    + exists [Readdir (Dir f files)], ∅.
      rewrite pending_direct, pending_free_permit.
      cbn [map msum foldr Sequential.contribution sound_op sound_root forallb].
      rewrite !madd_empty_r, madd_empty_l, andb_true_r.
      unfold direct. cbn [stats emfile rejected set_inflight].
      rewrite Hst, He, Hr. repeat split; trivial.
      destruct (sound (Dir f files)); auto.
    + exists [Readdir (DirUnreadable f err)], ∅.
      rewrite pending_direct, pending_free_permit.
      cbn [map msum foldr Sequential.contribution Sequential.tally sound_op
           sound_root sound forallb].
      rewrite !madd_empty_r.
      unfold direct. cbn [stats emfile rejected set_inflight].
      rewrite Hst, He. repeat split; trivial. now left.
    + cbn [Sequential.contribution Sequential.tally sound_op sound].
      destruct (languageOf EXTENSION_MAP f) as [l|].
      * exists [ReadFile l (File f content)], ∅.
        destruct (limited_data (ReadFile l (File f content)) (free_permit s))
          as (Hst' & _ & Hr' & He').
        rewrite pending_limited, pending_free_permit, Hst', He', Hr', Hst, He, Hr.
        cbn [map msum foldr Sequential.contribution readFile forallb sound_op].
        rewrite !madd_empty_r, madd_empty_l. repeat split; trivial.
      * exists [], ∅. rewrite pending_free_permit, Hst, He, Hr.
        cbn [map msum foldr forallb]. rewrite !madd_empty_r.
        repeat split; trivial.
    + cbn [Sequential.contribution Sequential.tally sound_op sound].
      destruct (languageOf EXTENSION_MAP f) as [l|].
      * exists [ReadFile l (FileUnreadable f err)], ∅.
        destruct (limited_data (ReadFile l (FileUnreadable f err)) (free_permit s))
          as (Hst' & _ & Hr' & He').
        rewrite pending_limited, pending_free_permit, Hst', He', Hr', Hst, He, Hr.
        cbn [map msum foldr Sequential.contribution readFile forallb sound_op].
        rewrite !madd_empty_r. repeat split; trivial.
      * exists [], ∅. rewrite pending_free_permit, Hst, He, Hr.
        cbn [map msum foldr forallb]. rewrite !madd_empty_r.
        repeat split; trivial.
    + exists [], ∅. rewrite pending_free_permit, Hst, He, Hr.
      cbn [map msum foldr forallb Sequential.contribution Sequential.tally
           sound_op sound].
      rewrite !madd_empty_r. repeat split; trivial.
    + exists [], ∅.
      rewrite (pending_ext (free_permit s) (reject err (free_permit s)))
        by reflexivity.
      rewrite pending_free_permit.
      cbn [map msum foldr forallb Sequential.contribution Sequential.tally
           sound_op sound stats emfile rejected reject].
      rewrite Hst, He, !madd_empty_r. repeat split; trivial.
      right. apply Hrej.
  - (* a read *)
    cbn [Sequential.contribution sound_op].
    destruct (readFile e) as [content|err].
    + exists [], {[ l := Text.lines content ]}.
      destruct (free_permit_data (count l (Text.lines content) s))
        as (Hst & _ & Hr & He).
      rewrite pending_free_permit, Hst, He, Hr.
      rewrite (pending_ext s (count l (Text.lines content) s)) by reflexivity.
      cbn [map msum foldr forallb stats emfile rejected count].
      rewrite count_is_madd, madd_empty_r. repeat split; trivial.
    + exists [], ∅.
      destruct (free_permit_data s) as (Hst & _ & Hr & He).
      rewrite pending_free_permit, Hst, He, Hr.
      cbn [map msum foldr forallb]. rewrite !madd_empty_r.
      repeat split; trivial.
Qed.


(** A rejection, once recorded, stays. *)
Lemma rejected_kept c s :
  rejected s <> None -> rejected (settle c s) <> None.
Proof.
  intros Hs.
  assert (forall e s0, rejected s0 <> None -> rejected (reject e s0) <> None)
    as Hrej by (intros e s0; cbn [rejected reject]; now destruct (rejected s0)).
  assert (forall s0, rejected (free_permit s0) = rejected s0) as Hfree
    by (intros s0; now destruct (free_permit_data s0) as (_ & _ & H & _)).
  destruct c as [[d|e|l e]|[d|e|l e]]; cbn [Traverse.settle]; trivial.
  - destruct (answer (readdir d) s) as [[files|error] s1] eqn:Ha;
      apply answer_inv in Ha as (_ & _ & _ & _ & Hr & _).
    + destruct (limited_all_data (tasks files) s1) as (_ & _ & H & _). congruence.
    + apply Hrej. congruence.
  - now rewrite Hfree.
  - destruct (answer (stat e) s) as [[st|error] s1] eqn:Ha;
      apply answer_inv in Ha as (_ & _ & _ & _ & Hr & _).
    + assert (rejected (free_permit s1) <> None) as H1 by (rewrite Hfree; congruence).
      destruct (isDirectory st); [exact H1|].
      destruct (isFile st); [|exact H1].
      destruct (languageOf EXTENSION_MAP (entry_name e)) as [l|]; [|exact H1].
      destruct (limited_data (ReadFile l e) (free_permit s1)) as (_ & _ & H & _).
      congruence.
    + apply Hrej. rewrite Hfree. congruence.
  - destruct (answer (readFile e) s) as [[content|error] s1] eqn:Ha;
      apply answer_inv in Ha as (_ & _ & _ & _ & Hr & _);
      rewrite Hfree; cbn [rejected count]; congruence.
Qed.

Lemma owed_spawned s s' spawned :
  pending s' ≡ₚ spawned ++ pending s ->
  owed s' = madd (msum (map contribution spawned)) (owed s).
Proof.
  intros Hp. unfold Sequential.owed.
  rewrite (msum_Permutation _ _ (Permutation_map contribution Hp)).
  now rewrite map_app, msum_app.
Qed.

Lemma step_balanced T i s s' :
  step_at EXTENSION_MAP i s = Some s' -> limiter_ok 0 s ->
  balanced T s -> balanced T s'.
Proof.
  unfold step_at. destruct (inflight s !! i) as [c|] eqn:Hi; [|discriminate].
  intros [= <-] Hl [Hn HT].
  destruct (taken_out_ok s i c Hi Hl) as [Hc _].
  set (s0 := set_inflight (delete i (inflight s)) s) in *.
  destruct (settle_effect c s0 Hc Hn)
    as (spawned & delta & Hp & Hst & Hsum & He & _).
  split; [exact He|].
  rewrite Hst, (owed_spawned s0 _ spawned Hp).
  rewrite <- madd_assoc, (madd_assoc delta), Hsum.
  rewrite <- HT.
  rewrite (owed_spawned s0 s [op_of c]).
  - cbn [map msum foldr]. now rewrite madd_empty_r.
  - cbn [app]. now apply pending_taken_out.
Qed.

Lemma step_sound i s s' :
  step_at EXTENSION_MAP i s = Some s' -> limiter_ok 0 s -> emfile s = [] ->
  rejected s = None /\ Forall (fun op => sound_op op = true) (pending s) ->
  rejected s' = None /\ Forall (fun op => sound_op op = true) (pending s').
Proof.
  unfold step_at. destruct (inflight s !! i) as [c|] eqn:Hi; [|discriminate].
  intros [= <-] Hl Hn [Hr Hall].
  destruct (taken_out_ok s i c Hi Hl) as [Hc _].
  rewrite (pending_taken_out s i c Hi) in Hall.
  set (s0 := set_inflight (delete i (inflight s)) s) in *.
  apply Forall_cons in Hall as [Hop Hall].
  destruct (settle_effect c s0 Hc Hn)
    as (spawned & delta & Hp & _ & _ & _ & Hsound).
  rewrite Hop in Hsound. destruct Hsound as [Hsp Hrej].
  split; [now rewrite Hrej|].
  rewrite Hp. apply Forall_app. split; [|exact Hall].
  apply Forall_forall. intros op Hin.
  rewrite forallb_forall in Hsp. apply Hsp. now apply list_elem_of_In.
Qed.

Lemma step_unsound i s s' :
  step_at EXTENSION_MAP i s = Some s' -> limiter_ok 0 s -> emfile s = [] ->
  rejected s <> None \/ Exists (fun op => sound_op op = false) (pending s) ->
  rejected s' <> None \/ Exists (fun op => sound_op op = false) (pending s').
Proof.
  unfold step_at. destruct (inflight s !! i) as [c|] eqn:Hi; [|discriminate].
  intros [= <-] Hl Hn Hbad.
  destruct (taken_out_ok s i c Hi Hl) as [Hc _].
  rewrite (pending_taken_out s i c Hi) in Hbad.
  set (s0 := set_inflight (delete i (inflight s)) s) in *.
  destruct Hbad as [Hr|Hex]; [left; now apply rejected_kept|].
  destruct (settle_effect c s0 Hc Hn)
    as (spawned & delta & Hp & _ & _ & _ & Hsound).
  apply Exists_cons in Hex as [Hop|Hrest].
  - rewrite Hop in Hsound. destruct Hsound as [Hsp|Hrej]; [|now left].
    right. rewrite Hp. apply Exists_app. left.
    apply Exists_exists.
    assert (exists op, In op spawned /\ sound_op op = false) as (op & Hin & Hop').
    { clear -Hsp. induction spawned as [|x r IH]; [discriminate|].
      cbn [forallb] in Hsp. destruct (sound_op x) eqn:Hx.
      - destruct (IH Hsp) as (op & Hin & Hop). exists op. split; [now right|assumption].
      - exists x. split; [now left|assumption]. }
    exists op. split; [now apply list_elem_of_In|assumption].
  - right. rewrite Hp. apply Exists_app. now right.
Qed.


Lemma reachable_balanced root s :
  reachable EXTENSION_MAP root [] s ->
  balanced (contribution (Readdir root)) s.
Proof.
  induction 1 as [|s s' Hreach IH [i Hstep]].
  - split; [reflexivity|].
    unfold Sequential.owed, pending, start.
    cbn [inflight limit stats queue pLimit map app op_of msum foldr].
    now rewrite madd_empty_r, madd_empty_l.
  - eapply step_balanced; eauto. now apply (reachable_ok _ _ _ _ Hreach).
Qed.

Lemma reachable_sound root s :
  sound_root root = true ->
  reachable EXTENSION_MAP root [] s ->
  rejected s = None /\ Forall (fun op => sound_op op = true) (pending s).
Proof.
  intros Hroot. induction 1 as [|s s' Hreach IH [i Hstep]].
  - split; [reflexivity|]. repeat constructor. exact Hroot.
  - eapply step_sound; eauto.
    + now apply (reachable_ok _ _ _ _ Hreach).
    + now apply (reachable_balanced root).
Qed.

Lemma reachable_unsound root s :
  sound_root root = false ->
  reachable EXTENSION_MAP root [] s ->
  rejected s <> None \/ Exists (fun op => sound_op op = false) (pending s).
Proof.
  intros Hroot. induction 1 as [|s s' Hreach IH [i Hstep]].
  - right. constructor. exact Hroot.
  - eapply step_unsound; eauto.
    + now apply (reachable_ok _ _ _ _ Hreach).
    + now apply (reachable_balanced root).
Qed.

Lemma sound_walk_tally root choices :
  sound_root root = true ->
  traverse EXTENSION_MAP root [] choices
  = inl (tally root, sum_values (tally root)).
Proof.
  intros Hroot. unfold traverse.
  destruct (traverse_settles EXTENSION_MAP root [] choices) as (Hreach & Hend).
  cbv zeta in Hreach, Hend.
  set (s := run _ _ _ _) in *.
  destruct (reachable_sound root s Hroot Hreach) as [Hr _].
  destruct (Hend Hr) as [Hin Hq].
  destruct (reachable_balanced root s Hreach) as [_ HT].
  destruct (reachable_ok _ _ _ _ Hreach) as [_ [Hsum _]].
  rewrite Hr.
  unfold Sequential.owed, pending in HT. rewrite Hin, Hq in HT.
  cbn [map app msum foldr] in HT. rewrite madd_empty_r in HT.
  assert (contribution (Readdir root) = tally root) as Hc
    by (destruct root; try discriminate Hroot; reflexivity).
  rewrite Hsum, HT, Hc. reflexivity.
Qed.

(** X1. The walk of a tree in which no stat and no listing fails, with no
    refusal by the system, returns the tally of the tree, whatever the
    order in which its calls settle; a file that cannot be read counts
    nothing and does not stop the walk. *)
Theorem traverse_is_tally root choices :
  sound_root root = true ->
  traverse EXTENSION_MAP root [] choices
  = inl (tally root, sum_values (tally root)).
Proof. apply sound_walk_tally. Qed.

Lemma refused_walk_rejects root rest choices :
  traverse EXTENSION_MAP root (true :: rest) choices = inr EMFILE.
Proof.
  unfold traverse.
  assert (exists fuel, work (start root (true :: rest)) = S fuel) as [fuel ->].
  { unfold work, start. cbn [inflight map op_of].
    pose proof (weight_op_pos (Readdir root)).
    rewrite list_sum_cons. destruct (weight_op (Readdir root)); [lia|].
    cbn. eexists. reflexivity. }
  cbn [run start inflight length rejected]. rewrite Nat.mod_1_r.
  unfold step_at. cbn [inflight lookup list_lookup delete list_delete].
  cbn [Traverse.settle]. unfold answer. cbn [emfile set_inflight].
  destruct fuel; reflexivity.
Qed.

Lemma unsound_walk_rejects root choices :
  sound_root root = false ->
  exists error, traverse EXTENSION_MAP root [] choices = inr error.
Proof.
  intros Hroot. unfold traverse.
  destruct (traverse_settles EXTENSION_MAP root [] choices) as (Hreach & Hend).
  cbv zeta in Hreach, Hend.
  set (s := run _ _ _ _) in *.
  destruct (rejected s) as [e|] eqn:Hrej; [now exists e|].
  destruct (Hend eq_refl) as [Hin Hq].
  destruct (reachable_unsound root s Hroot Hreach) as [Hr|Hex]; [congruence|].
  unfold pending in Hex. rewrite Hin, Hq in Hex. inversion Hex.
Qed.

(** X2. The walk rejects as soon as the system refuses its first call, and
    whenever a stat or a listing of the tree fails. *)
Theorem traverse_rejects root choices :
  (forall rest, traverse EXTENSION_MAP root (true :: rest) choices = inr EMFILE)
  /\ (sound_root root = false ->
      exists error, traverse EXTENSION_MAP root [] choices = inr error).
Proof.
  split; [intros rest; apply refused_walk_rejects | apply unsound_walk_rejects].
Qed.

(** *** One more file in a directory *)

Lemma tasks_app l1 l2 : tasks (l1 ++ l2) = tasks l1 ++ tasks l2.
Proof. unfold tasks. now rewrite List.filter_app, map_app. Qed.

Lemma tasks_shown x listing :
  entry_name x <> ".git" -> tasks (x :: listing) = Stat x :: tasks listing.
Proof.
  intros Hgit. unfold tasks. cbn [List.filter].
  apply String.eqb_neq in Hgit. now rewrite Hgit.
Qed.

(** A walk without refusals that returns a result has met no failing
    stat or listing, and its result is the tally. *)
Lemma walk_result_is_tally root choices st total :
  traverse EXTENSION_MAP root [] choices = inl (st, total) ->
  sound_root root = true /\ st = tally root /\ total = sum_values (tally root).
Proof.
  intros Hwalk. destruct (sound_root root) eqn:Hroot.
  - rewrite (sound_walk_tally root choices Hroot) in Hwalk.
    injection Hwalk as <- <-. auto.
  - destruct (unsound_walk_rejects root choices Hroot) as [error Herr].
    rewrite Herr in Hwalk. discriminate Hwalk.
Qed.

Lemma at_place_name p d listing listing' :
  entry_name (at_place p d listing) = entry_name (at_place p d listing').
Proof. now destruct p as [|[[d0 before] after] p]. Qed.

Lemma at_place_visited d0 before after p d listing :
  visited ((d0, before, after) :: p) d = true ->
  entry_name (at_place p d listing) <> ".git" /\ visited p d = true.
Proof.
  cbn [visited]. intros H. apply andb_true_iff in H as [Hname Hp].
  split; [|exact Hp]. apply negb_true_iff, String.eqb_neq in Hname.
  now destruct p as [|[[d1 before1] after1] p].
Qed.

(** What one entry more in the listing at a place adds to the tally. *)
Lemma tally_at_place x (Hx : entry_name x <> ".git") p :
  forall d before after,
  visited p d = true ->
  tally (at_place p d (before ++ x :: after))
  = madd (tally (at_place p d (before ++ after))) (tally x).
Proof.
  induction p as [|[[d0 before0] after0] p IH]; intros d before after Hp.
  - cbn [at_place]. rewrite !tally_Dir, !tasks_app, tasks_shown by assumption.
    rewrite !map_app, !msum_app. cbn [map msum foldr contribution].
    rewrite <- madd_assoc. f_equal. apply madd_comm.
  - destruct (at_place_visited _ _ _ _ _ (before ++ x :: after) Hp) as [Hname Hp'].
    pose proof Hname as Hname'.
    rewrite (at_place_name p d _ (before ++ after)) in Hname'.
    cbn [at_place]. rewrite !tally_Dir, !tasks_app, !tasks_shown by assumption.
    rewrite !map_app, !msum_app. cbn [map msum foldr contribution].
    rewrite (IH d before after Hp').
    set (X := tally (at_place p d (before ++ after))).
    set (A := msum (map contribution (tasks before0))).
    set (B := foldr madd ∅ (map contribution (tasks after0))).
    rewrite <- !madd_assoc. f_equal.
    rewrite (madd_comm (tally x) B), !madd_assoc. reflexivity.
Qed.

Lemma sound_at_place x (Hx : entry_name x <> ".git") (Hsound : sound x = true) p :
  forall d before after,
  visited p d = true ->
  sound (at_place p d (before ++ x :: after))
  = sound (at_place p d (before ++ after)).
Proof.
  induction p as [|[[d0 before0] after0] p IH]; intros d before after Hp.
  - cbn [at_place]. rewrite !sound_Dir, !tasks_app, tasks_shown by assumption.
    rewrite !forallb_app. cbn [forallb sound_op]. now rewrite Hsound.
  - destruct (at_place_visited _ _ _ _ _ (before ++ x :: after) Hp) as [Hname Hp'].
    pose proof Hname as Hname'.
    rewrite (at_place_name p d _ (before ++ after)) in Hname'.
    cbn [at_place]. rewrite !sound_Dir, !tasks_app, !tasks_shown by assumption.
    rewrite !forallb_app. cbn [forallb sound_op]. now rewrite (IH d before after Hp').
Qed.

Lemma sound_root_at_place p d listing :
  sound_root (at_place p d listing) = sound (at_place p d listing).
Proof. now destruct p as [|[[d0 before] after] p]. Qed.

(** C9. Take a tree whose walk returns a result, and put one more regular
    file into one of the directories that the walk goes down to, anywhere
    in the listing. The walk then returns the same result with the lines
    of the file added under [Dockerfile] when that is the name of the
    file, whatever the table holds; under the language that the table
    gives for the lowercased extension of the name otherwise; and it
    returns the very same result, with no entry made and nothing added,
    when the table has no entry for this extension. *)
Theorem classification p d before file content after choices choices' st total :
  file <> ".git" ->
  visited p d = true ->
  traverse EXTENSION_MAP (at_place p d (before ++ after)) [] choices
  = inl (st, total) ->
  traverse EXTENSION_MAP (at_place p d (before ++ File file content :: after))
           [] choices'
  = inl (match (if String.eqb file "Dockerfile" then Some "Dockerfile"
                else name <$> EXTENSION_MAP !! toLowerCase (Text.extname file)) with
         | Some languageName =>
             (<[languageName := default 0 (st !! languageName) + Text.lines content]> st,
              total + Text.lines content)
         | None => (st, total)
         end).
Proof.
  intros Hgit Hp Hwalk.
  destruct (walk_result_is_tally _ _ _ _ Hwalk) as (Hsound & -> & ->).
  assert (sound_root (at_place p d (before ++ File file content :: after)) = true)
    as Hsound'.
  { rewrite sound_root_at_place in *.
    now rewrite (sound_at_place (File file content) Hgit eq_refl). }
  rewrite (sound_walk_tally _ choices' Hsound'). f_equal.
  rewrite (tally_at_place (File file content) Hgit p d before after Hp).
  cbn [Sequential.tally]. unfold languageOf. cbv zeta.
  destruct (String.eqb file "Dockerfile").
  - now rewrite <- count_is_madd, sum_values_count.
  - destruct (EXTENSION_MAP !! toLowerCase (Text.extname file)) as [info|];
      cbn [fmap option_fmap option_map].
    + now rewrite <- count_is_madd, sum_values_count.
    + now rewrite madd_empty_r.
Qed.

End Effect.

End SequentialFacts.

(** ** Entries named .git *)

Section PruneFacts.
Import Limiter Traverse Sequential.

Lemma prune_name e : entry_name (prune e) = entry_name e.
Proof. now destruct e. Qed.

Lemma prune_stat e : stat (prune e) = stat e.
Proof. now destruct e. Qed.

Lemma prune_readFile e : readFile (prune e) = readFile e.
Proof. now destruct e. Qed.

Lemma prune_tasks e files :
  readdir e = inl files ->
  exists pruned, readdir (prune e) = inl pruned
                 /\ tasks pruned = map prune_op (tasks files).
Proof.
  destruct e as [f l| | | | |]; try discriminate. intros [= <-].
  cbn [prune readdir]. eexists. split; [reflexivity|].
  unfold tasks. induction l as [|x r IH]; [reflexivity|].
  cbn [List.filter]. destruct (negb (String.eqb (entry_name x) ".git")) eqn:Hx.
  - cbn [List.filter map]. rewrite prune_name, Hx. cbn [map prune_op].
    f_equal. exact IH.
  - exact IH.
Qed.

Lemma prune_readdir_error e error :
  readdir e = inr error -> readdir (prune e) = inr error.
Proof. now destruct e. Qed.

Lemma prune_submit op l :
  submit (prune_op op) (prune_limit l)
  = (prune_limit (fst (submit op l)), map prune_op (snd (submit op l))).
Proof.
  unfold submit, prune_limit. cbn [concurrency activeCount queue].
  destruct (activeCount l <? concurrency l)%nat; cbn [fst snd map concurrency activeCount queue];
    [reflexivity|]. now rewrite map_app.
Qed.

Lemma prune_release l :
  release (prune_limit l)
  = (prune_limit (fst (release l)), map prune_op (snd (release l))).
Proof.
  unfold release, prune_limit. cbn [queue].
  destruct (queue l) as [|job rest]; reflexivity.
Qed.

Lemma prune_set s cs l :
  prune_state (set_inflight cs (set_limit l s))
  = set_inflight (map prune_call cs) (set_limit (prune_limit l) (prune_state s)).
Proof. reflexivity. Qed.

Lemma map_Limited_prune ops :
  map prune_call (map Limited ops) = map Limited (map prune_op ops).
Proof. induction ops as [|op ops IH]; [reflexivity|]. cbn [map prune_call]. now rewrite IH. Qed.

Lemma prune_free_permit s :
  prune_state (free_permit s) = free_permit (prune_state s).
Proof.
  unfold free_permit. cbn [limit prune_state]. rewrite prune_release.
  destruct (release (limit s)) as [l started]. cbn [fst snd].
  rewrite prune_set, map_app, map_Limited_prune. reflexivity.
Qed.

Lemma prune_limited op s :
  prune_state (limited op s) = limited (prune_op op) (prune_state s).
Proof.
  unfold limited. cbn [limit prune_state]. rewrite prune_submit.
  destruct (submit op (limit s)) as [l started]. cbn [fst snd].
  rewrite prune_set, map_app, map_Limited_prune. reflexivity.
Qed.

Lemma prune_limited_all ops :
  forall s, prune_state (limited_all ops s)
            = limited_all (map prune_op ops) (prune_state s).
Proof.
  induction ops as [|op ops IH]; intros s.
  - cbn [map]. now rewrite !limited_all_nil.
  - cbn [map]. now rewrite !limited_all_cons, IH, prune_limited.
Qed.

Lemma prune_direct op s :
  prune_state (direct op s) = direct (prune_op op) (prune_state s).
Proof. unfold direct, prune_state, set_inflight. cbn. now rewrite map_app. Qed.

Lemma prune_answer {A} (r : A + jserror) s :
  answer r (prune_state s) = (fst (answer r s), prune_state (snd (answer r s))).
Proof.
  unfold answer. cbn [emfile prune_state]. now destruct (emfile s) as [|[] rest].
Qed.

Section Simulation.
Context {builtins : Builtins}.
Variable EXTENSION_MAP : gmap string LanguageInfo.

(** Settling a call of the pruned tree is settling the call of the
    tree, pruned. *)
Lemma prune_settle c s :
  settle EXTENSION_MAP (prune_call c) (prune_state s)
  = prune_state (settle EXTENSION_MAP c s).
Proof.
  destruct c as [[d|e|l e]|[d|e|l e]]; cbn [settle prune_call prune_op]; trivial.
  - rewrite prune_answer.
    destruct (emfile s) as [|[] rest] eqn:Hn; unfold answer; rewrite Hn; cbn [fst snd].
    + destruct (readdir d) as [files|error] eqn:Hd.
      * destruct (prune_tasks d files Hd) as (pruned & -> & ->).
        now rewrite prune_limited_all.
      * now rewrite (prune_readdir_error d error Hd).
    + destruct (readdir (prune d)); reflexivity.
    + destruct (readdir d) as [files|error] eqn:Hd.
      * destruct (prune_tasks d files Hd) as (pruned & -> & ->).
        now rewrite prune_limited_all.
      * now rewrite (prune_readdir_error d error Hd).
  - now rewrite prune_free_permit.
  - rewrite prune_stat, prune_answer, prune_name.
    destruct (answer (stat e) s) as [[st|error] s1]; cbn [fst snd].
    + rewrite <- prune_free_permit.
      destruct (isDirectory st); [now rewrite prune_direct|].
      destruct (isFile st); [|reflexivity].
      destruct (languageOf EXTENSION_MAP (entry_name e)) as [l|]; [|reflexivity].
      now rewrite prune_limited.
    + rewrite <- prune_free_permit. reflexivity.
  - rewrite prune_readFile, prune_answer.
    destruct (answer (readFile e) s) as [[content|error] s1]; cbn [fst snd].
    + change (count l (Text.lines content) (prune_state s1))
        with (prune_state (count l (Text.lines content) s1)).
      now rewrite <- prune_free_permit.
    + now rewrite <- prune_free_permit.
Qed.

Lemma prune_step_at i s :
  step_at EXTENSION_MAP i (prune_state s)
  = prune_state <$> step_at EXTENSION_MAP i s.
Proof.
  unfold step_at. cbn [inflight prune_state]. rewrite list_lookup_fmap.
  destruct (inflight s !! i) as [c|] eqn:Hi; cbn [fmap option_fmap option_map]; [|reflexivity].
  f_equal. rewrite <- prune_settle. f_equal.
  unfold prune_state, set_inflight. cbn. f_equal.
  clear. revert i. induction (inflight s) as [|x r IH]; intros [|i]; cbn; trivial.
  now rewrite IH.
Qed.

Lemma prune_run fuel :
  forall choices s,
  run EXTENSION_MAP fuel choices (prune_state s)
  = prune_state (run EXTENSION_MAP fuel choices s).
Proof.
  induction fuel as [|fuel IH]; intros choices s; [reflexivity|].
  cbn [run].
  change (rejected (prune_state s)) with (rejected s).
  destruct (rejected s); [reflexivity|].
  change (inflight (prune_state s)) with (map prune_call (inflight s)).
  rewrite length_map, prune_step_at.
  destruct (inflight s) as [|c cs]; [reflexivity|]. cbn [map].
  destruct (step_at EXTENSION_MAP _ s) as [s'|]; cbn [fmap option_fmap option_map];
    [apply IH | reflexivity].
Qed.

Lemma run_over fuel choices s :
  (work s <= fuel)%nat -> over (run EXTENSION_MAP fuel choices s).
Proof.
  intros Hfuel. unfold over.
  destruct (rejected (run EXTENSION_MAP fuel choices s)) eqn:Hrej; [left; discriminate|].
  right. now apply run_settles_all.
Qed.

(** Two runs of the loop from one state that are both over end in the
    same state. *)
Lemma run_fuel_irrelevant f1 :
  forall f2 choices s,
  over (run EXTENSION_MAP f1 choices s) ->
  over (run EXTENSION_MAP f2 choices s) ->
  run EXTENSION_MAP f1 choices s = run EXTENSION_MAP f2 choices s.
Proof.
  induction f1 as [|f1 IH]; intros f2 choices s H1 H2.
  - cbn [run] in *. symmetry. now apply run_stuck.
  - destruct f2 as [|f2].
    + cbn [run] in H2. now apply run_stuck.
    + cbn [run] in *. destruct (rejected s); [reflexivity|].
      destruct (inflight s) as [|c cs]; [reflexivity|].
      destruct (step_at EXTENSION_MAP _ s) as [s'|]; [|reflexivity].
      now apply IH.
Qed.

(** X3. Nothing below an entry named [.git] bears on the outcome of the
    walk, be it a file, a failure or a whole subtree. *)
Theorem traverse_ignores_git root refused choices :
  traverse EXTENSION_MAP (prune root) refused choices
  = traverse EXTENSION_MAP root refused choices.
Proof.
  unfold traverse.
  assert (start (prune root) refused = prune_state (start root refused)) as Hstart
    by reflexivity.
  set (full := run EXTENSION_MAP (work (start root refused)) choices (start root refused)).
  assert (run EXTENSION_MAP (work (start (prune root) refused)) choices
              (start (prune root) refused)
          = prune_state full) as ->.
  { subst full. rewrite <- prune_run, <- Hstart.
    apply run_fuel_irrelevant.
    - apply run_over. lia.
    - rewrite Hstart, prune_run.
      destruct (run_over (work (start root refused)) choices (start root refused))
        as [Hrej|Hin]; [lia | left; exact Hrej | right].
      cbn [inflight prune_state]. now rewrite Hin. }
  reflexivity.
Qed.

End Simulation.
End PruneFacts.

(** ** Bounds of the retrying wrapper *)

Section RetryBounds.
Import Retry.
Context {W A : Type}.
Variable fn : W -> (A + jserror) * W.

Lemma after_succ k : forall w, after fn (S k) w = snd (fn (after fn k w)).
Proof. induction k as [|k IH]; intros w; [reflexivity|]. cbn [after] in *. apply IH. Qed.

Lemma backoff_attempts k : forall delay,
  attempts (backoff k delay ++ [Attempt]) = S k.
Proof.
  unfold attempts. induction k as [|k IH]; intros delay; [reflexivity|].
  cbn [backoff app List.filter length]. now rewrite IH.
Qed.

Lemma backoff_waited k : forall delay,
  waited (backoff k delay ++ [Attempt]) = delay * (2 ^ Z.of_nat k - 1).
Proof.
  unfold waited. induction k as [|k IH]; intros delay.
  - cbn. lia.
  - cbn [backoff app fold_right]. rewrite IH.
    rewrite Nat2Z.inj_succ, Z.pow_succ_r by lia. lia.
Qed.

(** X5. A call through the wrapper calls the wrapped function at most 11
    times and waits at most 102300 units in all; the outside world has
    been acted on once per call made, and not at all when the signal was
    tripped. *)
Theorem wrapGraceful_bounded (aborted : bool) (w : W) :
  let '(_, w', tr) := wrapGraceful fn aborted w in
  (attempts tr <= 11)%nat
  /\ 0 <= waited tr <= 102300
  /\ w' = after fn (attempts tr) w
  /\ (aborted = true -> attempts tr = 0%nat)
  /\ (aborted = false -> (1 <= attempts tr)%nat).
Proof.
  destruct aborted.
  - cbn. repeat split; trivial; try lia; discriminate.
  - unfold wrapGraceful.
    destruct (retry_loop_shape fn 10 100 w) as (k & Hk & _ & -> & _).
    rewrite backoff_attempts, backoff_waited, after_succ.
    assert (1 <= 2 ^ Z.of_nat k <= 2 ^ 10)
      by (split; [pose proof (Z.pow_pos_nonneg 2 (Z.of_nat k)); lia
                 | apply Z.pow_le_mono_r; lia]).
    repeat split; trivial; try lia; discriminate.
Qed.

End RetryBounds.

(** ** Splitting and joining lines *)

Section SplitFacts.
Import Text.

Lemma split_plain_then seg :
  plain seg = true ->
  forall sep rest,
    (sep = String LF "" \/ sep = String CR (String LF "")
     \/ (sep = String CR "" /\ forall r, rest <> String LF r)) ->
    split (seg +:+ sep +:+ rest) = seg :: split rest.
Proof.
  induction seg as [|c seg IH]; intros Hp sep rest Hsep.
  - change ("" +:+ sep +:+ rest) with (sep +:+ rest).
    destruct Hsep as [->|[->|[-> Hrest]]]; [reflexivity | reflexivity |].
    change (String CR "" +:+ rest) with (String CR rest).
    rewrite split_cons. cbn [Ascii.eqb CR Bool.eqb]. 
    destruct rest as [|c' rest']; [reflexivity|].
    destruct (Ascii.eqb_spec c' LF) as [->|_]; [|reflexivity].
    now specialize (Hrest rest').
  - cbn [plain] in Hp. apply andb_true_iff in Hp as [Hp Hseg].
    apply andb_true_iff in Hp as [Hcr Hlf].
    change (String c seg +:+ sep +:+ rest) with (String c (seg +:+ sep +:+ rest)).
    rewrite split_cons.
    apply negb_true_iff in Hcr, Hlf. rewrite Hcr, Hlf.
    now rewrite (IH Hseg sep rest Hsep).
Qed.

Lemma split_plain_alone seg : plain seg = true -> split seg = [seg].
Proof.
  induction seg as [|c seg IH]; intros Hp; [reflexivity|].
  cbn [plain] in Hp. apply andb_true_iff in Hp as [Hp Hseg].
  apply andb_true_iff in Hp as [Hcr Hlf].
  rewrite split_cons. apply negb_true_iff in Hcr, Hlf. rewrite Hcr, Hlf.
  now rewrite (IH Hseg).
Qed.

(** X6. Splitting undoes joining: lines that hold neither CR nor LF, joined
    by LF, by CRLF or by CR, are given back as they were. *)
Theorem split_concat sep segs :
  segs <> [] ->
  Forall (fun seg => plain seg = true) segs ->
  In sep [String LF ""; String CR (String LF ""); String CR ""] ->
  split (String.concat sep segs) = segs
  /\ lines (String.concat sep segs) = Z.of_nat (length segs).
Proof.
  intros Hne Hall Hsep.
  assert (split (String.concat sep segs) = segs) as Hsplit.
  { induction segs as [|seg segs IH]; [contradiction|].
    apply Forall_cons in Hall as [Hseg Hall].
    destruct segs as [|seg' segs].
    - cbn [String.concat]. now apply split_plain_alone.
    - change (String.concat sep (seg :: seg' :: segs))
        with (seg +:+ sep +:+ String.concat sep (seg' :: segs)).
      rewrite split_plain_then; trivial.
      + f_equal. apply IH; [discriminate | assumption].
      + destruct Hsep as [<-|[<-|[<-|[]]]]; auto.
        right. right. split; [reflexivity|].
        intros r Hr.
        apply Forall_cons in Hall as [Hseg' _].
        destruct seg' as [|c s'].
        * destruct segs as [|s'' segs]; cbn in Hr; discriminate Hr.
        * assert (c = LF) as ->.
          { destruct segs; cbn in Hr; now injection Hr. }
          cbn in Hseg'. discriminate Hseg'. }
  split; [exact Hsplit|]. unfold lines. now rewrite Hsplit.
Qed.

End SplitFacts.

(** ** How a request can end *)

Section OutcomeFacts.
Import Cache Route Outcome.
Variable config : Config.
Variable parseURL : string -> option URL.
Variable fl : Q -> Q.
Context {builtins : Builtins}.
Variable EXTENSION_MAP : gmap string Traverse.LanguageInfo.
Context {C : Type} {service : CacheService C}.

Abbreviation POST := (POST config parseURL fl EXTENSION_MAP).
Abbreviation failure := (failure config).
Abbreviation outcome := (outcome config fl).

Lemma on_error_failure url error w (c : C) :
  failure url (fst (fst (on_error config url error w c)))
              (snd (on_error config url error w c)).
Proof.
  unfold on_error. destruct (is_abort error); [|constructor].
  destruct url as [repoUrl|]; [|constructor].
  destruct (negb (String.eqb repoUrl "")); [|constructor].
  destruct (set _ _ _ _ c) as [o c']. cbn [fst snd]. now constructor.
Qed.

Lemma analyze_outcome url w (c : C) :
  outcome url (fst (fst (analyze config fl EXTENSION_MAP url w c)))
          (CacheGet (cacheKey url) :: snd (analyze config fl EXTENSION_MAP url w c)).
Proof.
  unfold analyze.
  destruct (git_clone w url) as [b tree|error].
  - destruct (Traverse.traverse _ _ _ _) as [[st total]|error].
    + destruct (set _ _ _ _ c) as [[error|] c'].
      * pose proof (on_error_failure (Some url) error w c') as Hf.
        destruct (on_error config (Some url) error w c') as [[r c''] tr].
        cbn [fst snd app] in *. now apply store_failed.
      * cbn [fst snd]. apply fresh.
    + pose proof (on_error_failure (Some url) error w c) as Hf.
      destruct (on_error config (Some url) error w c) as [[r c''] tr].
      cbn [fst snd app] in *. now apply walk_failed.
  - pose proof (on_error_failure (Some url) error w c) as Hf.
    destruct (on_error config (Some url) error w c) as [[r c''] tr].
    cbn [fst snd app] in *. now apply fetch_failed.
Qed.

Lemma lookup_outcome url w (c : C) :
  outcome url (fst (fst (lookup config fl EXTENSION_MAP url w c)))
          (snd (lookup config fl EXTENSION_MAP url w c)).
Proof.
  unfold lookup.
  destruct (get _ _ c) as [[cachedData|error] c'].
  - destruct (truthy cachedData) eqn:Ht.
    + destruct cachedData; cbn [get_error fst snd];
        try (apply hit_positive; [exact Ht | reflexivity]).
      destruct (truthy (JStr error)) eqn:He; cbn [fst snd].
      * apply hit_negative. cbn in He. apply negb_true_iff in He.
        now apply String.eqb_neq.
      * apply hit_positive; [reflexivity | exact He].
    + pose proof (analyze_outcome url w c') as Ha.
      destruct (analyze config fl EXTENSION_MAP url w c') as [[r c''] tr].
      exact Ha.
  - pose proof (on_error_failure (Some url) error w c') as Hf.
    destruct (on_error config (Some url) error w c') as [[r c''] tr].
    cbn [fst snd] in *. now apply lookup_failed.
Qed.

(** Every request ends in one of two ways: turned away with nothing
    done, or past the checks with one of the outcomes above. *)
Lemma POST_outcome w request (c : C) :
  (exists message code,
     In code [400; 408; 500]
     /\ POST w request c = (error_response message code, c, []))
  \/ (exists url, request = Body (Some url)
                  /\ outcome url (fst (fst (POST w request c)))
                             (snd (POST w request c))).
Proof.
  unfold Route.POST. destruct request as [error|[url|]].
  - left. unfold on_error. destruct (is_abort error); do 2 eexists;
      (split; [|reflexivity]); cbn; auto.
  - destruct (String.eqb url "");
      [left; do 2 eexists; (split; [|reflexivity]); cbn; auto|].
    destruct (parseURL url) as [p|];
      [|left; do 2 eexists; (split; [|reflexivity]); cbn; auto].
    destruct (_ && _);
      [left; do 2 eexists; (split; [|reflexivity]); cbn; auto|].
    destruct (negb _);
      [left; do 2 eexists; (split; [|reflexivity]); cbn; auto|].
    right. exists url. split; [reflexivity|]. apply lookup_outcome.
  - left. do 2 eexists. (split; [|reflexivity]); cbn; auto.
Qed.


(** X7. The status of an answer is 200, 400, 408 or 500. Every answer other
    than 200 carries an error message, and an answer of 200 carries a
    value without a truthy error field. *)
Theorem response_shape w request (c : C) :
  let r := fst (fst (POST w request c)) in
  In (status r) [200; 400; 408; 500]
  /\ (status r <> 200 -> exists message, body r = JNegative message)
  /\ (status r = 200 ->
      truthy (body r) = true /\ truthy (get_error (body r)) = false).
Proof.
  pose proof (POST_outcome w request c) as H.
  destruct (Route.POST config parseURL fl EXTENSION_MAP w request c) as [[r c'] tr].
  by_outcome H;
    [cbn in Hcode; destruct Hcode as [<-|[<-|[<-|[]]]]|..];
    cbn [status body error_response];
    (split; [cbn; auto 6|]);
    (split;
     [intros Hs; first [eexists; reflexivity | exfalso; apply Hs; reflexivity]
     |intros Hs; first [discriminate Hs | split; first [assumption | reflexivity]]]).
Qed.


(** X9. Only two kinds of values are ever written to the cache: the timeout
    message, with the time to live of timeouts and in an answer of 408,
    and a result, with the time to live computed from some number of
    bytes. A request answered 400 writes nothing. *)
Theorem cache_writes w request (c : C) :
  let r := fst (fst (POST w request c)) in
  let tr := snd (POST w request c) in
  (forall key value t, In (CacheSet key value t) tr ->
     (value = JNegative (timeout_message config)
      /\ t = CACHE_TTL_ON_TIMEOUT config /\ status r = 408)
     \/ (exists stats totalLines bytes,
           value = JAnalysis stats totalLines /\ t = cache_ttl config fl bytes))
  /\ (status r = 400 -> occurrences is_set tr = 0%nat).
Proof.
  pose proof (POST_outcome w request c) as H.
  destruct (Route.POST config parseURL fl EXTENSION_MAP w request c) as [[r c'] tr].
  by_outcome H; cbn [app status error_response];
    (split; [|first [discriminate | reflexivity]]);
    intros key value t Hin; cbn in Hin;
    repeat (destruct Hin as [Hin|Hin];
            [first [discriminate Hin
                   | injection Hin as <- <- <-;
                     first [left; repeat split; reflexivity
                           | right; do 3 eexists; split; reflexivity]]|]);
    contradiction.
Qed.

End OutcomeFacts.

(** ** Names and extensions *)

Section ExtensionFacts.
Import Text Traverse.
Context {builtins : Builtins}.
Variable EXTENSION_MAP : gmap string LanguageInfo.

Lemma lower_ascii_slash c :
  Ascii.eqb (lower_ascii c) "/" = Ascii.eqb c "/".
Proof. destruct c as [[] [] [] [] [] [] [] []]; reflexivity. Qed.

Lemma lower_ascii_dot c :
  Ascii.eqb (lower_ascii c) "." = Ascii.eqb c ".".
Proof. destruct c as [[] [] [] [] [] [] [] []]; reflexivity. Qed.

Lemma lower_ascii_twice c : lower_ascii (lower_ascii c) = lower_ascii c.
Proof. destruct c as [[] [] [] [] [] [] [] []]; reflexivity. Qed.

Lemma lower_ascii_not_D c : lower_ascii c <> "D"%char.
Proof. destruct c as [[] [] [] [] [] [] [] []]; discriminate. Qed.

Lemma toLowerCaseASCII_twice s : toLowerCaseASCII (toLowerCaseASCII s) = toLowerCaseASCII s.
Proof.
  induction s as [|c s IH]; [reflexivity|].
  cbn [toLowerCaseASCII]. now rewrite lower_ascii_twice, IH.
Qed.

Lemma toLowerCaseASCII_chars s :
  list_ascii_of_string (toLowerCaseASCII s) = map lower_ascii (list_ascii_of_string s).
Proof.
  induction s as [|c s IH]; [reflexivity|].
  cbn [toLowerCaseASCII list_ascii_of_string map]. now rewrite IH.
Qed.

Lemma toLowerCaseASCII_length s : String.length (toLowerCaseASCII s) = String.length s.
Proof.
  induction s as [|c s IH]; [reflexivity|].
  cbn [toLowerCaseASCII String.length]. now rewrite IH.
Qed.

Lemma toLowerCaseASCII_substring n m s :
  substring n m (toLowerCaseASCII s) = toLowerCaseASCII (substring n m s).
Proof.
  revert n m. induction s as [|c s IH]; intros [|n] [|m]; try reflexivity.
  - cbn [toLowerCaseASCII substring]. now rewrite IH.
  - cbn [toLowerCaseASCII substring]. now rewrite IH.
  - cbn [toLowerCaseASCII substring]. now rewrite IH.
Qed.

Lemma extname_loop_lower chars i st :
  extname_loop (map lower_ascii chars) i st = extname_loop chars i st.
Proof.
  revert i st. induction chars as [|c chars IH]; intros i st; [reflexivity|].
  cbn [map extname_loop]. rewrite lower_ascii_slash, lower_ascii_dot, !IH.
  reflexivity.
Qed.

Lemma extname_lower p : extname (toLowerCaseASCII p) = toLowerCaseASCII (extname p).
Proof.
  unfold extname.
  rewrite toLowerCaseASCII_chars, <- map_rev, extname_loop_lower, toLowerCaseASCII_length.
  cbv zeta. destruct (_ || _); [reflexivity|]. apply toLowerCaseASCII_substring.
Qed.

Lemma lower_not_Dockerfile file :
  String.eqb (toLowerCaseASCII file) "Dockerfile" = false.
Proof.
  apply String.eqb_neq. destruct file as [|c file]; [discriminate|].
  cbn [toLowerCaseASCII]. intros [= H _]. now apply (lower_ascii_not_D c).
Qed.

Lemma languageOf_lower file :
  (forall s, toLowerCase (toLowerCaseASCII s) = toLowerCase s) ->
  file <> "Dockerfile" ->
  languageOf EXTENSION_MAP (toLowerCaseASCII file) = languageOf EXTENSION_MAP file.
Proof.
  intros Hlower Hfile. unfold languageOf. cbv zeta.
  rewrite lower_not_Dockerfile, extname_lower, Hlower.
  apply String.eqb_neq in Hfile. now rewrite Hfile.
Qed.

(** X10. Two names that differ only in the case of the letters A to Z are
    classified alike, whatever else the built-in lowering does, as long as
    it makes nothing of the case of these letters; the test for the name
    Dockerfile alone looks at the case. *)
Theorem classification_ignores_case file file' :
  (forall s, toLowerCase (toLowerCaseASCII s) = toLowerCase s) ->
  toLowerCaseASCII file = toLowerCaseASCII file' ->
  file <> "Dockerfile" -> file' <> "Dockerfile" ->
  languageOf EXTENSION_MAP file = languageOf EXTENSION_MAP file'.
Proof.
  intros Hlower Hsame Hfile Hfile'.
  rewrite <- (languageOf_lower file Hlower Hfile),
          <- (languageOf_lower file' Hlower Hfile').
  now rewrite Hsame.
Qed.

Lemma extname_loop_no_dot chars i st :
  Forall (fun c => c <> "."%char) chars ->
  startDot st = -1 -> startDot (extname_loop chars i st) = -1.
Proof.
  intros Hchars. revert i st.
  induction Hchars as [|c chars Hc Hchars IH]; intros i st Hst; [exact Hst|].
  cbn [extname_loop].
  destruct (Ascii.eqb c "/").
  - destruct (negb (matchedSlash st)); [exact Hst | now apply IH].
  - apply IH. apply Ascii.eqb_neq in Hc. rewrite Hc.
    destruct (end_ st =? -1); cbn [startDot]; rewrite Hst; cbn; first [exact Hst | reflexivity].
Qed.

(** X11. A name without a dot has the empty extension: apart from the
    name Dockerfile, such a file is counted only when the table of
    extensions has an entry for the empty string, and then under that
    entry's language. (The empty string is its own lower case.) *)
Theorem dotless_name_has_empty_extension file :
  toLowerCase "" = "" ->
  Forall (fun c => c <> "."%char) (list_ascii_of_string file) ->
  file <> "Dockerfile" ->
  extname file = ""
  /\ languageOf EXTENSION_MAP file = name <$> EXTENSION_MAP !! "".
Proof.
  intros Hempty Hchars Hfile.
  assert (extname file = "") as Hext.
  { unfold extname. cbv zeta.
    rewrite extname_loop_no_dot; [reflexivity | | reflexivity].
    now apply List.Forall_rev. }
  split; [exact Hext|].
  unfold languageOf. cbv zeta. rewrite Hext, Hempty.
  apply String.eqb_neq in Hfile. rewrite Hfile.
  now destruct (EXTENSION_MAP !! "").
Qed.

End ExtensionFacts.

(** ** More on the memory store *)

Section MemoryFacts.
Import Cache.

Lemma effective_ttl_nonzero ttl_s c : ttl c <> 0 -> effective_ttl ttl_s c <> 0.
Proof.
  intros Hc. unfold effective_ttl. destruct ttl_s as [t|]; [|exact Hc].
  destruct (Z.eqb_spec t 0); [exact Hc | lia].
Qed.

Lemma memory_get_expired key value ttl_s now later c :
  (0 < max c)%nat -> ttl c <> 0 -> now <> 0 ->
  effective_ttl ttl_s c < later - now ->
  fst (memory_get key later (snd (memory_set key value ttl_s now c))) = inl JNull.
Proof.
  intros Hmax Httl Hnow Hgt.
  assert (value = JUndefined \/ value <> JUndefined) as [->|Hv]
    by (destruct value; auto; right; discriminate).
  - unfold memory_get, memory_set, lru_set, lru_get. cbn [snd entries].
    now rewrite find_without.
  - destruct (memory_set_entries key value ttl_s now c Hmax Hv) as [rest Hes].
    unfold memory_get, lru_get. rewrite Hes. cbn [List.find lru_key].
    rewrite String.eqb_refl.
    assert (is_stale later
              {| lru_key := key; lru_value := value; lru_start := now;
                 lru_ttl := effective_ttl ttl_s c |} = true) as ->.
    { unfold is_stale. cbn [lru_ttl lru_start].
      pose proof (effective_ttl_nonzero ttl_s c Httl).
      rewrite !andb_true_iff, !negb_true_iff, !Z.eqb_neq, Z.ltb_lt. auto. }
    reflexivity.
Qed.

(** X12. An entry is served until its time to live is over and not after;
    a time to live of 0, or none, stands for the default of the store. *)
Theorem memory_entry_lifetime key value ttl_s now later c :
  (0 < max c)%nat -> ttl c <> 0 -> now <> 0 ->
  fst (memory_get key later (snd (memory_set key value ttl_s now c)))
  = inl (if truthy value && (later - now <=? effective_ttl ttl_s c)
         then value else JNull)
  /\ effective_ttl (Some 0) c = ttl c
  /\ effective_ttl None c = ttl c.
Proof.
  intros Hmax Httl Hnow. split; [|split; reflexivity].
  destruct (Z.leb_spec (later - now) (effective_ttl ttl_s c)) as [Hle|Hgt].
  - rewrite andb_true_r. now apply memory_get_fresh.
  - rewrite andb_false_r. now apply memory_get_expired.
Qed.

(** *** Other keys *)

Lemma without_length key es : (length (without key es) <= length es)%nat.
Proof.
  unfold without. induction es as [|e es IH]; [reflexivity|].
  cbn [List.filter]. destruct (negb _); cbn [length]; lia.
Qed.

Lemma find_without_other key other es :
  other <> key ->
  List.find (fun e => String.eqb (lru_key e) key) (without other es)
  = List.find (fun e => String.eqb (lru_key e) key) es.
Proof.
  intros Hne. unfold without. induction es as [|e es IH]; [reflexivity|].
  cbn [List.filter List.find].
  destruct (String.eqb_spec (lru_key e) other) as [He|He]; cbn [negb].
  - destruct (String.eqb_spec (lru_key e) key) as [Hk|Hk]; [congruence | exact IH].
  - cbn [List.find]. now rewrite IH.
Qed.

(** X14. Writing under one key does not change what is read under another,
    as long as the store has room for one more entry. *)
Theorem memory_set_leaves_other_keys key other value ttl_s now later c :
  other <> key ->
  (length (entries c) < max c)%nat ->
  fst (memory_get key later (snd (memory_set other value ttl_s now c)))
  = fst (memory_get key later c).
Proof.
  intros Hne Hroom.
  assert (List.find (fun e => String.eqb (lru_key e) key)
            (entries (snd (memory_set other value ttl_s now c)))
          = List.find (fun e => String.eqb (lru_key e) key) (entries c)) as Hfind.
  { unfold memory_set, lru_set. cbn [snd].
    pose proof (without_length other (entries c)) as Hlen.
    apply String.eqb_neq in Hne as Hneb.
    destruct value; cbv zeta; cbn [entries];
      try (rewrite firstn_all2 by (cbn [length]; lia); cbn [List.find lru_key];
           rewrite Hneb);
      now apply find_without_other. }
  unfold memory_get, lru_get. rewrite Hfind.
  destruct (List.find _ (entries c)) as [e|]; [|reflexivity].
  now destruct (is_stale later e).
Qed.

End MemoryFacts.

(** ** Fresh analyses *)

Section FreshFacts.
Import Cache Route.
Variable config : Config.
Variable parseURL : string -> option URL.
Variable fl : Q -> Q.
Context {builtins : Builtins}.
Variable EXTENSION_MAP : gmap string Traverse.LanguageInfo.

Abbreviation POST := (POST config parseURL fl EXTENSION_MAP).

Section AnyBackend.
Context {C : Type} {service : CacheService C}.

Lemma missed_lookup w url (c c' : C) cachedData :
  accepted config parseURL url ->
  get (cacheKey url) (now w) c = (inl cachedData, c') ->
  truthy cachedData = false ->
  POST w (Body (Some url)) c
  = (let '(r, c'', tr) := analyze config fl EXTENSION_MAP url w c' in
     (r, c'', CacheGet (cacheKey url) :: tr)).
Proof.
  intros Hacc Hget Hmiss.
  rewrite (POST_accepted _ _ _ _ _ _ _ Hacc).
  unfold lookup. now rewrite Hget, Hmiss.
Qed.

Lemma stored_analysis w url (c c' c'' : C) cachedData b tree st total :
  accepted config parseURL url ->
  get (cacheKey url) (now w) c = (inl cachedData, c') ->
  truthy cachedData = false ->
  git_clone w url = Cloned b tree ->
  Traverse.traverse EXTENSION_MAP tree (refused w) (choices w) = inl (st, total) ->
  set (cacheKey url) (JAnalysis st total) (Some (cache_ttl config fl b)) (now w) c'
  = (None, c'') ->
  POST w (Body (Some url)) c
  = ({| status := 200; body := JAnalysis st total |}, c'',
     [CacheGet (cacheKey url); Mkdtemp; Clone url; Walk;
      CacheSet (cacheKey url) (JAnalysis st total) (cache_ttl config fl b);
      RemoveTemp]).
Proof.
  intros Hacc Hget Hmiss Hclone Hwalk Hset.
  rewrite (missed_lookup w url c c' cachedData Hacc Hget Hmiss).
  unfold analyze. now rewrite Hclone, Hwalk, Hset.
Qed.

(** X15. The answer to a fresh analysis does not depend on the order in
    which the file calls settle: when the fetch succeeds, no stat and no
    listing of the tree fails, the system refuses no call and the result
    can be stored, the answer is 200 with the tally of the tree. *)
Theorem fresh_answer_is_tally w url (c c' c'' : C) cachedData b tree :
  accepted config parseURL url ->
  get (cacheKey url) (now w) c = (inl cachedData, c') ->
  truthy cachedData = false ->
  git_clone w url = Cloned b tree ->
  Sequential.sound_root tree = true ->
  refused w = [] ->
  let result :=
    JAnalysis (Sequential.tally EXTENSION_MAP tree)
              (Traverse.sum_values (Sequential.tally EXTENSION_MAP tree)) in
  set (cacheKey url) result (Some (cache_ttl config fl b)) (now w) c' = (None, c'') ->
  fst (fst (POST w (Body (Some url)) c)) = {| status := 200; body := result |}.
Proof.
  intros Hacc Hget Hmiss Hclone Hsound Hrefused result Hset.
  rewrite (stored_analysis w url c c' c'' cachedData b tree
             (Sequential.tally EXTENSION_MAP tree)
             (Traverse.sum_values (Sequential.tally EXTENSION_MAP tree))
             Hacc Hget Hmiss Hclone); trivial.
  rewrite Hrefused. now apply sound_walk_tally.
Qed.

(** X16. A walk that rejects for a reason other than cancellation fails
    the request with status 500 and the message of the error, the
    temporary directory is removed and nothing is written to the cache.
    The refusal with EMFILE of the listing of the root is such a reason,
    and so is, in a tree with an entry to look at, the refusal of the first
    stat that settles. *)
Theorem failed_walk_is_500 w url (c c' : C) cachedData b tree :
  accepted config parseURL url ->
  get (cacheKey url) (now w) c = (inl cachedData, c') ->
  truthy cachedData = false ->
  git_clone w url = Cloned b tree ->
  let failed message :=
    POST w (Body (Some url)) c
    = (error_response message 500, c',
       [CacheGet (cacheKey url); Mkdtemp; Clone url; Walk; RemoveTemp]) in
  (forall error,
     Traverse.traverse EXTENSION_MAP tree (refused w) (choices w) = inr error ->
     is_abort error = false ->
     failed (err_message error))
  /\ (forall rest, refused w = true :: rest -> failed (err_message EMFILE))
  /\ (forall d listing rest,
        tree = Traverse.Dir d listing -> Traverse.tasks listing <> [] ->
        refused w = false :: true :: rest ->
        failed (err_message EMFILE)).
Proof.
  intros Hacc Hget Hmiss Hclone failed.
  assert (forall error,
     Traverse.traverse EXTENSION_MAP tree (refused w) (choices w) = inr error ->
     is_abort error = false ->
     failed (err_message error)) as Hgen.
  { intros error Hwalk Habort. unfold failed.
    rewrite (missed_lookup w url c c' cachedData Hacc Hget Hmiss).
    unfold analyze, on_error. now rewrite Hclone, Hwalk, Habort. }
  split; [exact Hgen|]. split.
  - intros rest Hrefused. apply Hgen; [|reflexivity].
    rewrite Hrefused. apply refused_walk_rejects.
  - intros d listing rest -> Htasks Hrefused. apply Hgen; [|reflexivity].
    rewrite Hrefused. now apply refused_first_stat_rejects.
Qed.


End AnyBackend.


(** *** With the memory store *)





End FreshFacts.

(** ** Worked examples of the further properties *)

Section FurtherExamples.
#[local] Existing Instance ascii_builtins.
Import Text Traverse Cache Route.

Lemma traverse_is_tally_witness :
  Sequential.sound_root scenario = true
  /\ traverse sample_EXTENSION_MAP scenario [] [2; 0; 1; 1; 0]%nat
     = inl (Sequential.tally sample_EXTENSION_MAP scenario,
            sum_values (Sequential.tally sample_EXTENSION_MAP scenario)).
Proof.
  split; [reflexivity|].
  apply (traverse_is_tally sample_EXTENSION_MAP scenario [2; 0; 1; 1; 0]%nat).
  reflexivity.
Defined.

Lemma classification_witness :
  traverse sample_EXTENSION_MAP
    (Dir "" [File "a.py" "pass";
             Dir "deploy" [File "Dockerfile" ("FROM node" +:+ String LF "RUN make")]])
    [] [1; 0]%nat
  = inl (<["Dockerfile" := 2]> (<["Python" := 1]> ∅), 3)
  /\ traverse sample_EXTENSION_MAP
       (Dir "" [File "notes.txt" "to do"; File "a.py" "pass"]) [] []
     = inl (<["Python" := 1]> ∅, 1).
Proof.
  split.
  - rewrite (classification sample_EXTENSION_MAP
               [("", [File "a.py" "pass"], [])] "deploy" []
               "Dockerfile" ("FROM node" +:+ String LF "RUN make") []
               [] [1; 0]%nat (<["Python" := 1]> ∅) 1);
      [vm_compute; reflexivity | discriminate | reflexivity | vm_compute; reflexivity].
  - rewrite (classification sample_EXTENSION_MAP [] "" [] "notes.txt" "to do"
               [File "a.py" "pass"] [] [] (<["Python" := 1]> ∅) 1);
      [vm_compute; reflexivity | discriminate | reflexivity | vm_compute; reflexivity].
Defined.

Lemma split_concat_witness :
  split (String.concat (String CR (String LF "")) ["a"; ""; "b"]) = ["a"; ""; "b"]
  /\ lines (String.concat (String CR (String LF "")) ["a"; ""; "b"])
     = Z.of_nat (length ["a"; ""; "b"]).
Proof.
  apply (split_concat (String CR (String LF "")) ["a"; ""; "b"]).
  - discriminate.
  - repeat constructor.
  - right. left. reflexivity.
Defined.

Lemma classification_ignores_case_witness :
  languageOf sample_EXTENSION_MAP "Main.PY"
  = languageOf sample_EXTENSION_MAP "main.py".
Proof.
  apply (classification_ignores_case sample_EXTENSION_MAP "Main.PY" "main.py").
  - exact toLowerCaseASCII_twice.
  - reflexivity.
  - discriminate.
  - discriminate.
Defined.

Lemma dotless_name_has_empty_extension_witness :
  extname "README" = ""
  /\ languageOf sample_EXTENSION_MAP "README"
     = name <$> sample_EXTENSION_MAP !! "".
Proof.
  apply (dotless_name_has_empty_extension sample_EXTENSION_MAP "README").
  - reflexivity.
  - repeat constructor; discriminate.
  - discriminate.
Defined.

Lemma memory_entry_lifetime_witness :
  fst (memory_get "k" 61001
         (snd (memory_set "k" (JStr "v") (Some 60) 1000 MemoryCacheImpl)))
  = inl (if truthy (JStr "v")
            && (61001 - 1000 <=? effective_ttl (Some 60) MemoryCacheImpl)
         then JStr "v" else JNull)
  /\ effective_ttl (Some 0) MemoryCacheImpl = ttl MemoryCacheImpl
  /\ effective_ttl None MemoryCacheImpl = ttl MemoryCacheImpl.
Proof.
  apply (memory_entry_lifetime "k" (JStr "v") (Some 60) 1000 61001 MemoryCacheImpl).
  - cbn. lia.
  - discriminate.
  - discriminate.
Defined.

Lemma memory_set_leaves_other_keys_witness :
  let c := snd (memory_set "a" (JNum 1) None 1000 MemoryCacheImpl) in
  fst (memory_get "a" 3000 (snd (memory_set "b" (JNum 2) None 2000 c)))
  = fst (memory_get "a" 3000 c).
Proof.
  apply (memory_set_leaves_other_keys "a" "b" (JNum 2) None 2000 3000
           (snd (memory_set "a" (JNum 1) None 1000 MemoryCacheImpl))).
  - discriminate.
  - cbn. lia.
Defined.

Lemma fresh_answer_is_tally_witness :
  fst (fst (POST defaults PlainURL.parse exact sample_EXTENSION_MAP calm
              (Body (Some "https://github.com/a/b")) MemoryCacheImpl))
  = {| status := 200;
       body := JAnalysis (Sequential.tally sample_EXTENSION_MAP scenario)
                 (sum_values (Sequential.tally sample_EXTENSION_MAP scenario)) |}.
Proof.
  apply (fresh_answer_is_tally defaults PlainURL.parse exact sample_EXTENSION_MAP
           calm "https://github.com/a/b" MemoryCacheImpl MemoryCacheImpl
           (snd (memory_set "repo:https://github.com/a/b"
                   (JAnalysis (Sequential.tally sample_EXTENSION_MAP scenario)
                      (sum_values (Sequential.tally sample_EXTENSION_MAP scenario)))
                   (Some 86400) 1000 MemoryCacheImpl))
           JNull 1000 scenario github_accepted);
    reflexivity.
Defined.

Lemma failed_walk_is_500_witness :
  POST defaults PlainURL.parse exact sample_EXTENSION_MAP starved
       (Body (Some "https://github.com/a/b")) MemoryCacheImpl
  = (error_response (err_message EMFILE) 500, MemoryCacheImpl,
     [CacheGet (cacheKey "https://github.com/a/b"); Mkdtemp;
      Clone "https://github.com/a/b"; Walk; RemoveTemp]).
Proof.
  pose proof (failed_walk_is_500 defaults PlainURL.parse exact sample_EXTENSION_MAP
                (service := Memory) starved "https://github.com/a/b"
                MemoryCacheImpl MemoryCacheImpl JNull 1000 scenario
                github_accepted) as Hfailed.
  destruct (Hfailed eq_refl eq_refl eq_refl) as (_ & _ & Hstat).
  eapply Hstat; [reflexivity | discriminate | reflexivity].
Defined.




End FurtherExamples.
